(** * Tag store, manifest link resolution and pull-through manifest proxy
      of the distribution registry

    A shallow embedding of
    - the tag store ([TagStore]: [All], [Tag], [Get], [Untag], [Lookup]),
    - the construction of a repository's manifest service ([Manifests]),
    - the proxy manifest store ([proxyManifestStore]),
    over an in-memory storage driver, with the properties the specification
    states about them.  Stateful Go code is written in a state-and-error monad
    over the state it mutates; Go's [(value, error)] returns are [result]s. *)

From Stdlib Require Import Ascii String ZArith.
From stdpp Require Import gmap strings list sorting.

Local Open Scope string_scope.

(** * Errors and results *)

(** Driver failures other than "not found" (storage driver contract, error
    taxonomy). *)
Inductive ioError := InvalidPath | Unsupported | TransientIO | PermanentIO.

(** The Go [error] values that flow through the embedded code.  The type
    switches of the source ([case storagedriver.PathNotFoundError], [case
    distribution.ErrRepositoryUnknown]) become matches on the constructor. *)
Inductive error :=
  | PathNotFoundError (path : string)
  | DriverError (e : ioError) (path : string)
  | ErrRepositoryUnknown (name : string)
  | ErrTagUnknown (tag : string)
  | ErrBlobUnknown
  | ErrDigestInvalidFormat
  | errorString (msg : string).

Inductive result (A : Type) :=
  | Ok (a : A)
  | Err (e : error).
Arguments Ok {A} a.
Arguments Err {A} e.

Global Instance ioError_eq_dec : EqDecision ioError.
Proof. solve_decision. Defined.
Global Instance error_eq_dec : EqDecision error.
Proof. solve_decision. Defined.
Global Instance result_eq_dec {A} `{EqDecision A} : EqDecision (result A).
Proof. solve_decision. Defined.

Definition isPathNotFound (e : error) : bool :=
  match e with PathNotFoundError _ => true | _ => false end.

(** * The state-and-error monad

    [M S A] is a Go function that works on a shared store of type [S] and
    returns [(A, error)].  A failing call leaves the store as the call left
    it; [x ← m; k] is the idiom [x, err := m(); if err != nil { return err }]. *)
Definition M (S A : Type) : Type := S → result A * S.

Global Instance M_ret {S} : MRet (M S) := λ A a s, (Ok a, s).
Global Instance M_bind {S} : MBind (M S) := λ A B f m s,
  match m s with
  | (Ok a, s') => f a s'
  | (Err e, s') => (Err e, s')
  end.

Definition fail {S A} (e : error) : M S A := λ s, (Err e, s).
Definition liftR {S A} (r : result A) : M S A := λ s, (r, s).
(** [try m] runs [m] and hands its [(value, err)] pair to the caller, for the
    places where the source inspects [err] instead of returning it. *)
Definition try {S A} (m : M S A) : M S (result A) := λ s,
  match m s with (r, s') => (Ok r, s') end.

(** * Byte strings and paths *)

Definition bytes := string.

Definition isDigit (a : ascii) : bool :=
  Ascii.leb "0"%char a && Ascii.leb a "9"%char.

Fixpoint allChars (p : ascii → bool) (s : string) : bool :=
  match s with
  | "" => true
  | String a s' => p a && allChars p s'
  end.

(** Go's [path.Split]: the path is cut after its final slash; without a
    slash the directory is empty and the file is the whole path. *)
Fixpoint path_Split (p : string) : string * string :=
  match p with
  | "" => ("", "")
  | String a p' =>
      let '(dir, file) := path_Split p' in
      if decide (dir = "") then
        if Ascii.eqb a "/"%char then ("/", file) else ("", String a file)
      else (String a dir, file)
  end.

(** Go's [sort.Strings]: increasing order, strings compared byte by byte.
    The order is total and antisymmetric, so the sorted arrangement of a list
    is unique and every sorting algorithm returns it. *)
Definition sort_Strings (l : list string) : list string :=
  merge_sort String.le l.

(** * Digests *)
Module digest.

Definition Digest := string.

(** Modelled from the spec: the digest package is not among the sources.
    A digest is [<algorithm>:<hex>] (data model, "Digest"); [split] cuts
    at the first colon, [Validate] accepts a non-empty lower-case
    alphanumeric algorithm followed by a non-empty lower-case hex string. *)
Fixpoint split (d : string) : option (string * string) :=
  match d with
  | "" => None
  | String a d' =>
      if Ascii.eqb a ":"%char then Some ("", d')
      else match split d' with
           | Some (alg, hex) => Some (String a alg, hex)
           | None => None
           end
  end.

Definition isAlgChar (a : ascii) : bool :=
  isDigit a || (Ascii.leb "a"%char a && Ascii.leb a "z"%char).
Definition isHexChar (a : ascii) : bool :=
  isDigit a || (Ascii.leb "a"%char a && Ascii.leb a "f"%char).

Definition nonEmpty (s : string) : bool :=
  match s with "" => false | _ => true end.

(** Modelled from the spec: the check behind [Validate] and [Parse], a
    digest of the form [<algorithm>:<hex>]. *)
Definition valid (d : Digest) : bool :=
  match split d with
  | Some (alg, hex) =>
      nonEmpty alg && allChars isAlgChar alg
      && nonEmpty hex && allChars isHexChar hex
  | None => false
  end.

(** Modelled from the spec: [Digest.Validate], an error for a string that
    is not a digest. *)
Definition Validate (d : Digest) : result unit :=
  if valid d then Ok tt else Err ErrDigestInvalidFormat.

(** Modelled from the spec: [digest.Parse], the string as a digest when it
    is one. *)
Definition Parse (s : string) : result Digest :=
  match Validate s with
  | Ok _ => Ok s
  | Err e => Err e
  end.

End digest.

(** Modelled from the spec: the descriptor type is declared outside the
    sources; its fields are those of the data model ("Descriptor"). *)
Record Descriptor := mkDescriptor {
  MediaType : string;
  Digest : digest.Digest;
  Size : Z;
  URLs : list string;
}.

(** [distribution.Descriptor{Digest: d}]: every other field has Go's zero
    value. *)
Definition DescriptorOf (d : digest.Digest) : Descriptor :=
  {| MediaType := ""; Digest := d; Size := 0; URLs := [] |}.

(** * Storage driver *)
Module storagedriver.

Inductive op := GetContentOp | PutContentOp | ListOp | StatOp | DeleteOp.

Global Instance op_eq_dec : EqDecision op.
Proof. solve_decision. Defined.

(** Modelled from the spec: the driver is an interface whose
    implementations are external.  Storage driver contract: a flat
    key/value store keyed by paths ([files]); every operation may fail with
    an error of the driver's taxonomy ([outage] says which calls the backend
    refuses); [PutContent] is an atomic overwrite, so a refused write
    changes nothing.  [journal] is the history of the writes the backend
    performed, oldest first; no operation reads it. *)
Record StorageDriver := mkDriver {
  files : gmap string bytes;
  outage : op → string → option ioError;
  journal : list (string * bytes);
}.

Definition guarded {A} (o : op) (p : string) (k : M StorageDriver A)
  : M StorageDriver A := λ d,
  match outage d o p with
  | Some e => (Err (DriverError e p), d)
  | None => k d
  end.

Definition GetContent (p : string) : M StorageDriver bytes :=
  guarded GetContentOp p (λ d,
    match files d !! p with
    | Some c => (Ok c, d)
    | None => (Err (PathNotFoundError p), d)
    end).

Definition PutContent (p : string) (c : bytes) : M StorageDriver unit :=
  guarded PutContentOp p (λ d,
    (Ok tt, {| files := <[p := c]> (files d);
               outage := outage d;
               journal := journal d ++ [(p, c)] |})).

(** The first path segment of [s] (up to, not including, a slash). *)
Fixpoint segment (s : string) : string :=
  match s with
  | "" => ""
  | String a s' => if Ascii.eqb a "/"%char then "" else String a (segment s')
  end.

(** The direct child of directory [dir] on the way to the key [key], when
    [key] lies strictly below [dir]. *)
Definition childOf (dir key : string) : option string :=
  let pre := dir +:+ "/" in
  if String.prefix pre key then
    let rest := String.substring (String.length pre)
                  (String.length key - String.length pre) key in
    let seg := segment rest in
    if decide (seg = "") then None else Some (pre +:+ seg)
  else None.

Definition children (fs : gmap string bytes) (dir : string) : list string :=
  remove_dups (omap (childOf dir) (map fst (map_to_list fs))).

(** [List(path) → sequence<childPath> | NotFound], unordered. *)
Definition List (p : string) : M StorageDriver (list string) :=
  guarded ListOp p (λ d,
    match children (files d) p with
    | [] => (Err (PathNotFoundError p), d)
    | cs => (Ok cs, d)
    end).

(** [Stat(path) → { size, ... } | NotFound], for a stored object. *)
Definition Stat (p : string) : M StorageDriver Z :=
  guarded StatOp p (λ d,
    match files d !! p with
    | Some c => (Ok (Z.of_nat (String.length c)), d)
    | None => (Err (PathNotFoundError p), d)
    end).

Definition below (dir key : string) : bool :=
  bool_decide (key = dir) || String.prefix (dir +:+ "/") key.

(** [Delete(path)], recursive over prefixes. *)
Definition Delete (p : string) : M StorageDriver unit :=
  guarded DeleteOp p (λ d,
    let gone := filter (λ kv, below p kv.1 = true) (files d) in
    if decide (gone = ∅) then (Err (PathNotFoundError p), d)
    else (Ok tt, {| files := filter (λ kv, below p kv.1 = false) (files d);
                    outage := outage d;
                    journal := journal d |})).

End storagedriver.

(** * Package strconv and errgroup: what the tag store uses of them *)

Definition digitValue (a : ascii) : option Z :=
  if isDigit a then Some (Z.of_nat (nat_of_ascii a) - 48)%Z else None.

Fixpoint digitsValue (acc : Z) (s : string) : option Z :=
  match s with
  | "" => Some acc
  | String a s' =>
      match digitValue a with
      | Some n => digitsValue (acc * 10 + n)%Z s'
      | None => None
      end
  end.

(** Go's [strconv.Atoi]: an optional sign and at least one decimal digit,
    the value within the 64-bit [int]; [None] stands for [err != nil]. *)
Definition Atoi (s : string) : option Z :=
  let '(neg, body) :=
    match s with
    | String "+" r => (false, r)
    | String "-" r => (true, r)
    | _ => (false, s)
    end in
  match body with
  | "" => None
  | _ =>
      match digitsValue 0 body with
      | Some v =>
          let n := if neg then (- v)%Z else v in
          if bool_decide (- 2 ^ 63 ≤ n < 2 ^ 63)%Z then Some n else None
      | None => None
      end
  end.

(** A Go call that may never return. *)
Inductive outcome (A : Type) :=
  | Returns (a : A)
  | Blocks.
Arguments Returns {A} a.
Arguments Blocks {A}.

Module errgroup.

(** [Group.SetLimit(n)] followed by [Group.Go]: a negative [n] is no limit,
    a positive [n] admits the next function once fewer than [n] are active
    (so every function is admitted in the end); with [n = 0] no function
    is ever admitted and [Go] blocks for good. *)
Definition admits (limit : Z) : bool := negb (limit =? 0)%Z.

(** The functions of a group run to completion in some order (here: the
    order of submission); [Wait] reports the first error recorded.  The
    first component collects what the functions sent on the output
    channel. *)
Fixpoint run {S A} (fs : list (M S (option A))) (sent : list A)
    (first : option error) : S → (list A * option error) * S := λ s,
  match fs with
  | [] => ((sent, first), s)
  | f :: fs' =>
      match f s with
      | (Ok (Some a), s') => run fs' (sent ++ [a]) first s'
      | (Ok None, s') => run fs' sent first s'
      | (Err e, s') =>
          run fs' sent (match first with Some e0 => Some e0 | None => Some e end) s'
      end
  end.

(** [Go] is called once per function; the group is then awaited. *)
Definition goAll {S A} (limit : Z) (fs : list (M S (option A)))
  : S → outcome ((list A * option error) * S) := λ s,
  match fs with
  | [] => Returns (run fs [] None s)
  | _ :: _ => if admits limit then Returns (run fs [] None s) else Blocks
  end.

End errgroup.

(** * Package storage: path mapper, blob store links, tag store *)
Module storage.
Import storagedriver.

Inductive pathSpec :=
  | manifestRevisionLinkPathSpec (name : string) (revision : digest.Digest)
  | layerLinkPathSpec (name : string) (dgst : digest.Digest)
  | manifestTagsPathSpec (name : string)
  | manifestTagPathSpec (name tag : string)
  | manifestTagCurrentPathSpec (name tag : string)
  | manifestTagIndexPathSpec (name tag : string)
  | manifestTagIndexEntryLinkPathSpec (name tag : string) (revision : digest.Digest)
  | blobDataPathSpec (dgst : digest.Digest).

Definition root : string := "/docker/registry/v2".

(** Modelled from the spec: the path mapper is not among the sources.
    External interfaces, on-disk layout: [<alg>/<hex>] for a link,
    [<alg>/<first-2-hex>/<full-hex>] for blob data.  A digest that is not
    [<algorithm>:<hex>] is an invalid path spec and is reported as an
    error. *)
Definition digestPathComponents (d : digest.Digest) (multilevel : bool)
  : result string :=
  match digest.Validate d, digest.split d with
  | Ok _, Some (alg, hex) =>
      if multilevel then Ok (alg +:+ "/" +:+ String.substring 0 2 hex +:+ "/" +:+ hex)
      else Ok (alg +:+ "/" +:+ hex)
  | Err e, _ => Err e
  | Ok _, None => Err ErrDigestInvalidFormat
  end.

Definition repoPath (name : string) : string :=
  root +:+ "/repositories/" +:+ name.

(** Modelled from the spec: [pathFor(spec) → string], a pure function of
    the tagged record, with the layout of the external interfaces
    section. *)
Definition pathFor (spec : pathSpec) : result string :=
  match spec with
  | manifestRevisionLinkPathSpec name revision =>
      match digestPathComponents revision false with
      | Ok c => Ok (repoPath name +:+ "/_manifests/revisions/" +:+ c +:+ "/link")
      | Err e => Err e
      end
  | layerLinkPathSpec name dgst =>
      match digestPathComponents dgst false with
      | Ok c => Ok (repoPath name +:+ "/_layers/" +:+ c +:+ "/link")
      | Err e => Err e
      end
  | manifestTagsPathSpec name =>
      Ok (repoPath name +:+ "/_manifests/tags")
  | manifestTagPathSpec name tag =>
      Ok (repoPath name +:+ "/_manifests/tags/" +:+ tag)
  | manifestTagCurrentPathSpec name tag =>
      Ok (repoPath name +:+ "/_manifests/tags/" +:+ tag +:+ "/current/link")
  | manifestTagIndexPathSpec name tag =>
      Ok (repoPath name +:+ "/_manifests/tags/" +:+ tag +:+ "/index")
  | manifestTagIndexEntryLinkPathSpec name tag revision =>
      match digestPathComponents revision false with
      | Ok c => Ok (repoPath name +:+ "/_manifests/tags/" +:+ tag
                      +:+ "/index/" +:+ c +:+ "/link")
      | Err e => Err e
      end
  | blobDataPathSpec dgst =>
      match digestPathComponents dgst true with
      | Ok c => Ok (root +:+ "/blobs/" +:+ c +:+ "/data")
      | Err e => Err e
      end
  end.

(** Modelled from the spec: link file format, "No trailing newline
    required; implementations MUST tolerate one". *)
Fixpoint trimNewline (s : string) : string :=
  match s with
  | "" => ""
  | String a s' =>
      if Ascii.eqb a "010"%char && bool_decide (s' = "") then ""
      else String a (trimNewline s')
  end.

(** Modelled from the spec: [blobStore.link] is not among the sources.  A
    link is a backend object whose entire contents are the digest string
    of its target. *)
Definition link (path : string) (dgst : digest.Digest) : M StorageDriver unit :=
  PutContent path dgst.

(** Modelled from the spec: [blobStore.readlink] is not among the sources.
    It reads the link file and returns the digest it holds (link file
    format: a single line [<algorithm>:<hex>]). *)
Definition readlink (path : string) : M StorageDriver digest.Digest :=
  content ← GetContent path;
  liftR (digest.Parse (trimNewline content)).

Record repository := mkRepository { name : string }.

(** The fields of the tag store's [linkedBlobStore] that [Tag] sets; the
    blob store it points to is the driver state the monad threads. *)
Record linkedBlobStore := mkLinkedBlobStore {
  lbs_repository : repository;
  linkPath : string → digest.Digest → result string;
}.

(** Modelled from the spec: [linkedBlobStore.linkBlob] is not among the
    sources.  It writes (or overwrites) the repository link of the
    store's role for the descriptor's digest. *)
Definition linkBlob (lbs : linkedBlobStore) (canonical : Descriptor)
  : M StorageDriver unit :=
  blobLinkPath ← liftR (linkPath lbs (name (lbs_repository lbs)) (Digest canonical));
  link blobLinkPath (Digest canonical).

Record TagStore := mkTagStore {
  ts_repository : repository;
  lookupConcurrencyFactor : Z;
}.

(** [env] is the value of STORAGE_TAGSTORE_LOOKUP_CONCURRENCY (empty when
    unset). *)
Definition NewStore (env : string) (repo : repository) : TagStore :=
  let lookupConcurrencyFactor :=
    match Atoi env with
    | Some n => n
    | None => 64%Z
    end in
  {| ts_repository := repo;
     lookupConcurrencyFactor := lookupConcurrencyFactor |}.

Definition All (ts : TagStore) : M StorageDriver (list string) :=
  pathSpec ← liftR (pathFor (manifestTagsPathSpec (name (ts_repository ts))));
  r ← try (List pathSpec);
  match r with
  | Err (PathNotFoundError _) =>
      fail (ErrRepositoryUnknown (name (ts_repository ts)))
  | Err err => fail err
  | Ok entries =>
      let tags := map (λ entry, (path_Split entry).2) entries in
      mret (sort_Strings tags)
  end.

Definition ts_linkedBlobStore (ts : TagStore) (tag : string) : linkedBlobStore :=
  {| lbs_repository := ts_repository ts;
     linkPath := λ name dgst,
       pathFor (manifestTagIndexEntryLinkPathSpec name tag dgst) |}.

Definition Tag (ts : TagStore) (tag : string) (desc : Descriptor)
  : M StorageDriver unit :=
  currentPath ← liftR (pathFor (manifestTagCurrentPathSpec
                                  (name (ts_repository ts)) tag));
  let lbs := ts_linkedBlobStore ts tag in
  (* Link into the index *)
  _ ← linkBlob lbs desc;
  (* Overwrite the current link *)
  link currentPath (Digest desc).

Definition Get (ts : TagStore) (tag : string) : M StorageDriver Descriptor :=
  currentPath ← liftR (pathFor (manifestTagCurrentPathSpec
                                  (name (ts_repository ts)) tag));
  r ← try (readlink currentPath);
  match r with
  | Err (PathNotFoundError _) => fail (ErrTagUnknown tag)
  | Err err => fail err
  | Ok revision => mret (DescriptorOf revision)
  end.

Definition Untag (ts : TagStore) (tag : string) : M StorageDriver unit :=
  tagPath ← liftR (pathFor (manifestTagPathSpec (name (ts_repository ts)) tag));
  Delete tagPath.

(** [tagLinkPath, _ := pathFor(tagLinkPathSpec)]: the path of the tag's
    current link, the error dropped. *)
Definition tagLinkPath (ts : TagStore) (tag : string) : string :=
  let tagLinkPathSpec := manifestTagCurrentPathSpec (name (ts_repository ts)) tag in
  match pathFor tagLinkPathSpec with
  | Ok p => p
  | Err _ => ""
  end.

(** The function [Lookup] hands to [group.Go] for one tag: [Some tag] is
    the tag sent on the output channel. *)
Definition lookupTag (ts : TagStore) (desc : Descriptor) (tag : string)
  : M StorageDriver (option string) :=
  r ← try (readlink (tagLinkPath ts tag));
  match r with
  | Err (PathNotFoundError _) => mret None
  | Err err => fail err
  | Ok tagDigest =>
      if decide (tagDigest = Digest desc) then mret (Some tag) else mret None
  end.

(** [Lookup] starts one function per tag in an errgroup limited to
    [lookupConcurrencyFactor] and collects the tags they send until the
    group is done.  The order in which tags arrive, and which error is the
    first when several reads fail, depend on the schedule; the embedding
    runs the functions in the order of [allTags]. *)
Definition Lookup (ts : TagStore) (desc : Descriptor)
  : StorageDriver → outcome (result (list string) * StorageDriver) := λ s,
  let '(r, s1) := All ts s in
  let listed :=
    match r with
    | Ok allTags => Ok allTags
    | Err (ErrRepositoryUnknown _) =>
        (* This tag store has been initialized but not yet populated *)
        Ok []
    | Err err => Err err
    end in
  match listed with
  | Err err => Returns (Err err, s1)
  | Ok allTags =>
      match errgroup.goAll (lookupConcurrencyFactor ts)
              (map (lookupTag ts desc) allTags) s1 with
      | Returns ((tags, Some err), s2) => Returns (Err err, s2)
      | Returns ((tags, None), s2) => Returns (Ok tags, s2)
      | Blocks => Blocks
      end
  end.

(** [pointsAt ts desc s tag]: in state [s] the current link of [tag]
    resolves to the digest of [desc]. *)
Definition pointsAt (ts : TagStore) (desc : Descriptor) (s : StorageDriver)
    (tag : string) : Prop :=
  (readlink (tagLinkPath ts tag) s).1 = Ok (Digest desc).

Global Instance pointsAt_dec ts desc s tag : Decision (pointsAt ts desc s tag).
Proof. unfold pointsAt. apply _. Defined.

End storage.

(** * Package storage, registry.go: the repository's manifest service *)
Module registry.
Import storagedriver.

Definition linkPathFunc := string → digest.Digest → result string.
Definition blobsRootPathFunc := string → result string.

Definition blobLinkPath : linkPathFunc := λ name dgst,
  storage.pathFor (storage.layerLinkPathSpec name dgst).
Definition blobsRootPath : blobsRootPathFunc := λ name,
  Ok (storage.repoPath name +:+ "/_layers").

Record registry := mkRegistry {
  deleteEnabled : bool;
  resumableDigestEnabled : bool;
  (* registry.blobStore.removeParentsOnDelete *)
  removeParentsOnDelete : bool;
}.

Record repository := mkRepository {
  repo_registry : registry;
  name : string;
}.

Record linkedBlobStatter := mkLinkedBlobStatter {
  st_repository : repository;
  st_linkPathFns : list linkPathFunc;
  st_removeParentsOnDelete : bool;
}.

Record linkedBlobStore := mkLinkedBlobStore {
  lbs_repository : repository;
  lbs_deleteEnabled : bool;
  blobAccessController : linkedBlobStatter;
  linkPathFns : list linkPathFunc;
  blobsRootPathFns : list blobsRootPathFunc;
}.

(** The signature store works on the registry's global blob store, which is
    the driver state. *)
Record signatureStore := mkSignatureStore {
  sig_repository : repository;
}.

Record signedManifestHandler := mkSignedManifestHandler {
  s1_repository : repository;
  s1_blobStore : linkedBlobStore;
  signatures : signatureStore;
}.

Record manifestHandler := mkHandler {
  h_repository : repository;
  h_blobStore : linkedBlobStore;
}.

(** [skipDependencyVerification] is a field that [Manifests] leaves at Go's
    zero value; the options may set it. *)
Record manifestStore := mkManifestStore {
  ms_repository : repository;
  blobStore : linkedBlobStore;
  schema1Handler : signedManifestHandler;
  schema2Handler : manifestHandler;
  manifestListHandler : manifestHandler;
  skipDependencyVerification : bool;
}.

(** A [distribution.ManifestServiceOption]: [Apply] updates the store it is
    given or fails. *)
Definition ManifestServiceOption := manifestStore → result manifestStore.

Fixpoint applyOptions (options : list ManifestServiceOption) (ms : manifestStore)
  : result manifestStore :=
  match options with
  | [] => Ok ms
  | option :: rest =>
      match option ms with
      | Ok ms' => applyOptions rest ms'
      | Err err => Err err
      end
  end.


Definition resolveWithLinkFunc (repo : repository) (dgst : digest.Digest)
    (linkPathFn : linkPathFunc) : M StorageDriver digest.Digest :=
  blobLinkPath ← liftR (linkPathFn (name repo) dgst);
  storage.readlink blobLinkPath.

(** Modelled from the spec: the linked blob store's methods are not among
    the sources.  Reading tolerates every link path of the store: the
    link path functions are tried in the order listed, an absent link
    moves on to the next one, and when none holds a link the blob is
    unknown to the repository. *)
Fixpoint resolve (repo : repository) (fns : list linkPathFunc)
    (dgst : digest.Digest) : M StorageDriver digest.Digest :=
  match fns with
  | [] => fail ErrBlobUnknown
  | linkPathFn :: rest =>
      r ← try (resolveWithLinkFunc repo dgst linkPathFn);
      match r with
      | Ok target => mret target
      | Err (PathNotFoundError _) => resolve repo rest dgst
      | Err err => fail err
      end
  end.

(** Modelled from the spec: [Stat(digest)] "first reads the appropriate
    link path under the current repository; if the link is absent, it
    returns ErrBlobUnknown even when the global blob exists"; a link whose
    target is missing is surfaced as an unknown blob (I3). *)
Definition Stat (st : linkedBlobStatter) (dgst : digest.Digest)
  : M StorageDriver Descriptor :=
  target ← resolve (st_repository st) (st_linkPathFns st) dgst;
  dataPath ← liftR (storage.pathFor (storage.blobDataPathSpec target));
  r ← try (storagedriver.Stat dataPath);
  match r with
  | Ok size =>
      mret {| MediaType := "application/octet-stream"; Digest := target;
              Size := size; URLs := [] |}
  | Err (PathNotFoundError _) => fail ErrBlobUnknown
  | Err err => fail err
  end.

(** Modelled from the spec: a read through the linked blob store is a
    [Stat] in the repository followed by a read of the global blob. *)
Definition Get (lbs : linkedBlobStore) (dgst : digest.Digest)
  : M StorageDriver bytes :=
  canonical ← Stat (blobAccessController lbs) dgst;
  dataPath ← liftR (storage.pathFor (storage.blobDataPathSpec (Digest canonical)));
  GetContent dataPath.

(** Modelled from the spec: "Writes always use the canonical path for the
    role", the first link path function of the store.  (On a store
    without link path functions the embedding reports an error.) *)
Definition linkBlob (lbs : linkedBlobStore) (canonical : Descriptor)
  : M StorageDriver unit :=
  match linkPathFns lbs with
  | [] => fail (errorString "no link path")
  | linkPathFn :: _ =>
      blobLinkPath ← liftR (linkPathFn (name (lbs_repository lbs)) (Digest canonical));
      storage.link blobLinkPath (Digest canonical)
  end.

End registry.

(** * Package proxy: the pull-through manifest store *)
Module proxy.

(** [time.Duration] counts nanoseconds. *)
Definition Second : Z := 1000000000.
Definition Minute : Z := 60 * Second.

(* todo(richardscothern): from cache control header *)
Definition repositoryTTL : Z := 10 * Minute.

Section Services.
(** The manifest type, its [Payload] method and [digest.FromBytes] are
    declared outside the sources. *)
Context {SignedManifest : Type}.
Context (Payload : SignedManifest → result bytes).
Context (FromBytes : bytes → result digest.Digest).

(** The [distribution.ManifestService] interface, over the state [St] of
    the service that implements it. *)
Record ManifestService (St : Type) := mkManifestService {
  svc_Exists : digest.Digest → M St bool;
  svc_Get : digest.Digest → M St SignedManifest;
  svc_Put : SignedManifest → M St unit;
  svc_Delete : digest.Digest → M St unit;
  svc_Tags : M St (list string);
  svc_ExistsByTag : string → M St bool;
  svc_GetByTag : string → M St SignedManifest;
}.
Arguments svc_Exists {St}.
Arguments svc_Get {St}.
Arguments svc_Put {St}.
Arguments svc_Delete {St}.
Arguments svc_Tags {St}.
Arguments svc_ExistsByTag {St}.
Arguments svc_GetByTag {St}.

Inductive call :=
  | CallExists (dgst : digest.Digest)
  | CallGet (dgst : digest.Digest)
  | CallPut (sm : SignedManifest)
  | CallDelete (dgst : digest.Digest)
  | CallTags
  | CallExistsByTag (tag : string)
  | CallGetByTag (tag : string).

Inductive event :=
  | Local (c : call)
  | Remote (c : call)
  | AddManifest (repositoryName : string) (ttl : Z).

(** What the proxy works on: the local registry, the remote registry,
    the entries handed to the scheduler, and the history of the calls the
    proxy made, oldest first (no operation reads it). *)
Record World (L R : Type) := mkWorld {
  local : L;
  remote : R;
  scheduler : list (string * Z);
  history : list event;
}.
Arguments mkWorld {L R}.
Arguments local {L R}.
Arguments remote {L R}.
Arguments scheduler {L R}.
Arguments history {L R}.

Context {L R : Type}.

Definition onLocal {A} (c : call) (m : M L A) : M (World L R) A := λ w,
  match m (local w) with
  | (r, l') => (r, {| local := l'; remote := remote w;
                      scheduler := scheduler w;
                      history := history w ++ [Local c] |})
  end.

Definition onRemote {A} (c : call) (m : M R A) : M (World L R) A := λ w,
  match m (remote w) with
  | (r, r') => (r, {| local := local w; remote := r';
                      scheduler := scheduler w;
                      history := history w ++ [Remote c] |})
  end.

(** Modelled from the spec: the scheduler package is not among the sources.
    [AddManifest(repo, ttl)] hands the scheduler an entry for the
    repository; the proxy code does nothing else with it. *)
Definition scheduler_AddManifest (repositoryName : string) (ttl : Z)
  : M (World L R) unit := λ w,
  (Ok tt, {| local := local w; remote := remote w;
             scheduler := scheduler w ++ [(repositoryName, ttl)];
             history := history w ++ [AddManifest repositoryName ttl] |}).

Record proxyManifestStore := mkProxyManifestStore {
  localManifests : ManifestService L;
  remoteManifests : ManifestService R;
  repositoryName : string;
}.

Definition Exists (pms : proxyManifestStore) (dgst : digest.Digest)
  : M (World L R) bool :=
  exists_ ← onLocal (CallExists dgst) (svc_Exists (localManifests pms) dgst);
  if exists_ : bool then mret true
  else onRemote (CallExists dgst) (svc_Exists (remoteManifests pms) dgst).

Definition Get (pms : proxyManifestStore) (dgst : digest.Digest)
  : M (World L R) SignedManifest :=
  r ← try (onLocal (CallGet dgst) (svc_Get (localManifests pms) dgst));
  match r with
  | Ok sm => mret sm
  | Err _ =>
      sm ← onRemote (CallGet dgst) (svc_Get (remoteManifests pms) dgst);
      _ ← onLocal (CallPut sm) (svc_Put (localManifests pms) sm);
      _ ← scheduler_AddManifest (repositoryName pms) repositoryTTL;
      mret sm
  end.

Definition Put (pms : proxyManifestStore) (manifest : SignedManifest)
  : M (World L R) unit :=
  fail (errorString "Not supported").

Definition Delete (pms : proxyManifestStore) (dgst : digest.Digest)
  : M (World L R) unit :=
  fail (errorString "Not supported").

Definition Tags (pms : proxyManifestStore) : M (World L R) (list string) :=
  onLocal CallTags (svc_Tags (localManifests pms)).

Definition ExistsByTag (pms : proxyManifestStore) (tag : string)
  : M (World L R) bool :=
  exists_ ← onLocal (CallExistsByTag tag) (svc_ExistsByTag (localManifests pms) tag);
  if exists_ : bool then mret true
  else onRemote (CallExistsByTag tag) (svc_ExistsByTag (remoteManifests pms) tag).

Definition GetByTag (pms : proxyManifestStore) (tag : string)
  : M (World L R) SignedManifest :=
  sm ← onRemote (CallGetByTag tag) (svc_GetByTag (remoteManifests pms) tag);
  payload ← liftR (Payload sm);
  digestFromRemote ← liftR (FromBytes payload);
  remoteManifestExistsLocally ←
    onLocal (CallExists digestFromRemote)
            (svc_Exists (localManifests pms) digestFromRemote);
  if remoteManifestExistsLocally : bool then mret sm
  else
    _ ← onLocal (CallPut sm) (svc_Put (localManifests pms) sm);
    _ ← scheduler_AddManifest (repositoryName pms) repositoryTTL;
    mret sm.

End Services.

Arguments svc_Exists {SignedManifest St}.
Arguments svc_Get {SignedManifest St}.
Arguments svc_Put {SignedManifest St}.
Arguments svc_Delete {SignedManifest St}.
Arguments svc_Tags {SignedManifest St}.
Arguments svc_ExistsByTag {SignedManifest St}.
Arguments svc_GetByTag {SignedManifest St}.
Arguments mkWorld {SignedManifest L R}.
Arguments local {SignedManifest L R}.
Arguments remote {SignedManifest L R}.
Arguments scheduler {SignedManifest L R}.
Arguments history {SignedManifest L R}.

End proxy.


(** * Package storage, registry.go: the registry, its options and its
      repositories *)
Module namespace.

Section Registry.
(** [cache.BlobDescriptorCacheProvider] and the repository-scoped
    descriptor service it hands out are declared outside the sources. *)
Context {Provider Cache : Type}.
Context (RepositoryScoped : Provider → string → result Cache).

(** A blob statter: the global one over the driver, or
    [cache.NewCachedBlobStatter(provider, backend)]. *)
Inductive statter :=
  | blobStatter
  | cachedBlobStatter (provider : Provider) (backend : statter).

(** The fields of [blobStore] and [blobServer] the registry sets; the
    driver both share is the state the storage monad threads. *)
Record blobStore := mkBlobStore {
  bs_statter : statter;
  bs_deleteEnabled : bool;
  bs_removeParentsOnDelete : bool;
}.

Record blobServer := mkBlobServer {
  srv_statter : statter;
  redirect : bool;
}.

Record registry := mkRegistry {
  reg_blobStore : blobStore;
  reg_blobServer : blobServer;
  reg_statter : statter;
  blobDescriptorCacheProvider : option Provider;
  deleteEnabled : bool;
  resumableDigestEnabled : bool;
}.

(** [RegistryOption]: a function that updates the registry it is given or
    fails. *)
Definition RegistryOption := registry → result registry.

Definition EnableRedirect : RegistryOption := λ registry,
  Ok {| reg_blobStore := reg_blobStore registry;
        reg_blobServer := {| srv_statter := srv_statter (reg_blobServer registry);
                             redirect := true |};
        reg_statter := reg_statter registry;
        blobDescriptorCacheProvider := blobDescriptorCacheProvider registry;
        deleteEnabled := deleteEnabled registry;
        resumableDigestEnabled := resumableDigestEnabled registry |}.

Definition EnableDelete : RegistryOption := λ registry,
  Ok {| reg_blobStore := {| bs_statter := bs_statter (reg_blobStore registry);
                            bs_deleteEnabled := true;
                            bs_removeParentsOnDelete :=
                              bs_removeParentsOnDelete (reg_blobStore registry) |};
        reg_blobServer := reg_blobServer registry;
        reg_statter := reg_statter registry;
        blobDescriptorCacheProvider := blobDescriptorCacheProvider registry;
        deleteEnabled := true;
        resumableDigestEnabled := resumableDigestEnabled registry |}.

Definition DisableDigestResumption : RegistryOption := λ registry,
  Ok {| reg_blobStore := reg_blobStore registry;
        reg_blobServer := reg_blobServer registry;
        reg_statter := reg_statter registry;
        blobDescriptorCacheProvider := blobDescriptorCacheProvider registry;
        deleteEnabled := deleteEnabled registry;
        resumableDigestEnabled := false |}.

Definition RemoveParentsOnDelete : RegistryOption := λ registry,
  Ok {| reg_blobStore := {| bs_statter := bs_statter (reg_blobStore registry);
                            bs_deleteEnabled :=
                              bs_deleteEnabled (reg_blobStore registry);
                            bs_removeParentsOnDelete := true |};
        reg_blobServer := reg_blobServer registry;
        reg_statter := reg_statter registry;
        blobDescriptorCacheProvider := blobDescriptorCacheProvider registry;
        deleteEnabled := deleteEnabled registry;
        resumableDigestEnabled := resumableDigestEnabled registry |}.

(** The argument is [None] for Go's [nil] provider. *)
Definition BlobDescriptorCacheProvider (provider : option Provider)
  : RegistryOption := λ registry,
  match provider with
  | Some p =>
      let statter := cachedBlobStatter p (reg_statter registry) in
      Ok {| reg_blobStore := {| bs_statter := statter;
                                bs_deleteEnabled :=
                                  bs_deleteEnabled (reg_blobStore registry);
                                bs_removeParentsOnDelete :=
                                  bs_removeParentsOnDelete (reg_blobStore registry) |};
            reg_blobServer := {| srv_statter := statter;
                                 redirect := redirect (reg_blobServer registry) |};
            reg_statter := reg_statter registry;
            blobDescriptorCacheProvider := Some p;
            deleteEnabled := deleteEnabled registry;
            resumableDigestEnabled := resumableDigestEnabled registry |}
  | None => Ok registry
  end.

(** [for _, option := range options]: the options are applied in order,
    the first error ends the loop. *)
Fixpoint applyOptions (options : list RegistryOption) (reg : registry)
  : result registry :=
  match options with
  | [] => Ok reg
  | option :: rest =>
      match option reg with
      | Ok reg' => applyOptions rest reg'
      | Err err => Err err
      end
  end.

Definition NewRegistry (options : list RegistryOption) : result registry :=
  (* create global statter *)
  let statter := blobStatter in
  let bs := {| bs_statter := statter;
               bs_deleteEnabled := false;
               bs_removeParentsOnDelete := false |} in
  let registry := {|
    reg_blobStore := bs;
    reg_blobServer := {| srv_statter := statter; redirect := false |};
    reg_statter := statter;
    blobDescriptorCacheProvider := None;
    deleteEnabled := false;
    resumableDigestEnabled := true;
  |} in
  applyOptions options registry.

Record repository := mkRepository {
  repo_registry : registry;
  repo_name : string;
  descriptorCache : option Cache;
}.

Definition Repository (reg : registry) (canonicalName : string)
  : result repository :=
  match blobDescriptorCacheProvider reg with
  | Some provider =>
      match RepositoryScoped provider canonicalName with
      | Ok descriptorCache =>
          Ok {| repo_registry := reg; repo_name := canonicalName;
                descriptorCache := Some descriptorCache |}
      | Err err => Err err
      end
  | None =>
      Ok {| repo_registry := reg; repo_name := canonicalName;
            descriptorCache := None |}
  end.

(** [registry.Blobs]: the registry's blob store. *)
Definition registry_Blobs (reg : registry) : blobStore := reg_blobStore reg.

(** The repository as [registry.Manifests] reads it: its name and the
    three flags of its registry. *)
Definition view (repo : repository) : registry.repository :=
  {| registry.repo_registry :=
       {| registry.deleteEnabled := deleteEnabled (repo_registry repo);
          registry.resumableDigestEnabled :=
            resumableDigestEnabled (repo_registry repo);
          registry.removeParentsOnDelete :=
            bs_removeParentsOnDelete (reg_blobStore (repo_registry repo)) |};
     registry.name := repo_name repo |}.

(** The access controller of a layer store: the linked blob statter, or
    [cache.NewCachedBlobStatter(descriptorCache, statter)]. *)
Inductive accessController :=
  | linkedStatter (st : registry.linkedBlobStatter)
  | cachedLinkedStatter (cache : Cache) (st : registry.linkedBlobStatter).

Record layerBlobStore := mkLayerBlobStore {
  ls_registry : registry;
  ls_blobStore : blobStore;
  ls_blobServer : blobServer;
  ls_blobAccessController : accessController;
  ls_repository : repository;
  ls_linkPathFns : list registry.linkPathFunc;
  ls_blobsRootPathFns : list registry.blobsRootPathFunc;
  ls_deleteEnabled : bool;
  ls_resumableDigestEnabled : bool;
}.

Definition Blobs (repo : repository) : layerBlobStore :=
  let statter := {|
    registry.st_repository := view repo;
    registry.st_linkPathFns := [registry.blobLinkPath];
    registry.st_removeParentsOnDelete :=
      bs_removeParentsOnDelete (reg_blobStore (repo_registry repo));
  |} in
  let statter :=
    match descriptorCache repo with
    | Some cache => cachedLinkedStatter cache statter
    | None => linkedStatter statter
    end in
  {| ls_registry := repo_registry repo;
     ls_blobStore := reg_blobStore (repo_registry repo);
     ls_blobServer := reg_blobServer (repo_registry repo);
     ls_blobAccessController := statter;
     ls_repository := repo;
     (* TODO(stevvooe): linkPath limits this blob store to only layers.
        This instance cannot be used for manifest checks. *)
     ls_linkPathFns := [registry.blobLinkPath];
     ls_blobsRootPathFns := [registry.blobsRootPath];
     ls_deleteEnabled := deleteEnabled (repo_registry repo);
     ls_resumableDigestEnabled := resumableDigestEnabled (repo_registry repo) |}.

(** The options this file of the package provides. *)
Definition provided (option : RegistryOption) : Prop :=
  option = EnableRedirect ∨ option = EnableDelete
  ∨ option = DisableDigestResumption ∨ option = RemoveParentsOnDelete
  ∨ ∃ provider, option = BlobDescriptorCacheProvider provider.

End Registry.

End namespace.

(** * Scenarios

    Concrete stores, used to run the embedded code. *)
Module scenario.
Import storagedriver.

Definition emptyDriver : StorageDriver :=
  {| files := ∅; outage := λ _ _, None; journal := [] |}.

(** A backend that refuses every write to [p]. *)
Definition refusingWrites (p : string) : StorageDriver :=
  {| files := ∅;
     outage := λ o q,
       if bool_decide (o = PutContentOp ∧ q = p) then Some TransientIO else None;
     journal := [] |}.

Definition repo : storage.repository := {| storage.name := "library/app" |}.

(** The tag store of [repo] with the environment variable unset, and the
    one with the variable set to zero. *)
Definition ts : storage.TagStore := storage.NewStore "" repo.
Definition tsZero : storage.TagStore := storage.NewStore "0" repo.

Definition d1 : digest.Digest := "sha256:aa11".
Definition d2 : digest.Digest := "sha256:bb22".

Definition after {A} (m : M StorageDriver A) (s : StorageDriver) : StorageDriver :=
  (m s).2.

(** [Tag("v1", d1)]; then [Tag("v1", d2)], [Tag("beta", d2)],
    [Tag("alpha", d1)]; then a tag directory "ghost" that has a history
    entry and no current link. *)
Definition s1 : StorageDriver :=
  Eval vm_compute in after (storage.Tag ts "v1" (DescriptorOf d1)) emptyDriver.
Definition s4 : StorageDriver :=
  Eval vm_compute in
    after (storage.Tag ts "alpha" (DescriptorOf d1))
      (after (storage.Tag ts "beta" (DescriptorOf d2))
         (after (storage.Tag ts "v1" (DescriptorOf d2)) s1)).
Definition s5 : StorageDriver :=
  Eval vm_compute in
    after (PutContent
             "/docker/registry/v2/repositories/library/app/_manifests/tags/ghost/index/sha256/bb22/link"
             d2) s4.

Definition tagsPath : string :=
  "/docker/registry/v2/repositories/library/app/_manifests/tags".

Definition indexEntryV1 : string :=
  "/docker/registry/v2/repositories/library/app/_manifests/tags/v1/index/sha256/aa11/link".




(** A manifest service held in memory: manifests by digest, digests by
    tag.  Manifests are their payload; the digest of a payload is a
    stand-in for a hash. *)
Definition memory : Type := gmap digest.Digest string * gmap string digest.Digest.

Definition Payload (sm : string) : result bytes := Ok sm.
Definition FromBytes (p : bytes) : result digest.Digest := Ok ("toy:" +:+ p).

Definition memoryGet (dgst : digest.Digest) : M memory string := λ st,
  match st.1 !! dgst with
  | Some sm => (Ok sm, st)
  | None => (Err (errorString "unknown manifest"), st)
  end.

Definition memoryManifests : proxy.ManifestService memory :=
  {| proxy.svc_Exists := λ dgst st, (Ok (bool_decide (is_Some (st.1 !! dgst))), st);
     proxy.svc_Get := memoryGet;
     proxy.svc_Put := λ sm st, (Ok tt, (<["toy:" +:+ sm := sm]> st.1, st.2));
     proxy.svc_Delete := λ dgst st, (Ok tt, (delete dgst st.1, st.2));
     proxy.svc_Tags := λ st, (Ok (map fst (map_to_list st.2)), st);
     proxy.svc_ExistsByTag := λ tag st, (Ok (bool_decide (is_Some (st.2 !! tag))), st);
     proxy.svc_GetByTag := λ tag st,
       match st.2 !! tag with
       | Some dgst => memoryGet dgst st
       | None => (Err (errorString "unknown tag"), st)
       end |}.

Definition pms : proxy.proxyManifestStore :=
  {| proxy.localManifests := memoryManifests;
     proxy.remoteManifests := memoryManifests;
     proxy.repositoryName := "library/app" |}.

Definition upstream : memory :=
  (<["toy:m1" := "m1"]> ∅, <["latest" := "toy:m1"]> ∅).

(** A cold proxy (nothing cached) and a warm one (the manifest cached). *)
Definition cold : @proxy.World string memory memory :=
  {| proxy.local := (∅, ∅); proxy.remote := upstream;
     proxy.scheduler := []; proxy.history := [] |}.
Definition warm : @proxy.World string memory memory :=
  {| proxy.local := (<["toy:m1" := "m1"]> ∅, ∅); proxy.remote := upstream;
     proxy.scheduler := []; proxy.history := [] |}.
(** A proxy whose upstream is empty. *)
Definition offline : @proxy.World string memory memory :=
  {| proxy.local := (<["toy:m1" := "m1"]> ∅, ∅); proxy.remote := (∅, ∅);
     proxy.scheduler := []; proxy.history := [] |}.

End scenario.

(** * Further scenarios *)
Module scenario_more.
Import storagedriver scenario.

Definition currentV1 : string :=
  "/docker/registry/v2/repositories/library/app/_manifests/tags/v1/current/link".
Definition currentAlpha : string :=
  "/docker/registry/v2/repositories/library/app/_manifests/tags/alpha/current/link".

(** [s4] after [Untag("v1")]. *)
Definition untagged : StorageDriver :=
  Eval vm_compute in after (storage.Untag ts "v1") s4.

(** [s1] after [Tag("v1", d1)] once more. *)
Definition retagged : StorageDriver :=
  Eval vm_compute in after (storage.Tag ts "v1" (DescriptorOf d1)) s1.

(** [s1] after [Tag("alpha", d1)]. *)
Definition s2 : StorageDriver :=
  Eval vm_compute in after (storage.Tag ts "alpha" (DescriptorOf d1)) s1.

(** The backend that refuses to write the current link of "v1", after
    the index entry of [d1] has been linked. *)
Definition indexed : StorageDriver :=
  Eval vm_compute in
    after (storage.linkBlob (storage.ts_linkedBlobStore ts "v1") (DescriptorOf d1))
      (refusingWrites currentV1).

(** [s5] on a backend that cannot read the current link of "alpha". *)
Definition unreadable : StorageDriver :=
  {| files := files s5;
     outage := λ o q,
       if bool_decide (o = GetContentOp ∧ q = currentAlpha)
       then Some PermanentIO else None;
     journal := journal s5 |}.

(** A local registry that accepts no manifest. *)
Definition fullManifests : proxy.ManifestService memory :=
  {| proxy.svc_Exists := proxy.svc_Exists memoryManifests;
     proxy.svc_Get := proxy.svc_Get memoryManifests;
     proxy.svc_Put := λ sm st, (Err (errorString "no space left"), st);
     proxy.svc_Delete := proxy.svc_Delete memoryManifests;
     proxy.svc_Tags := proxy.svc_Tags memoryManifests;
     proxy.svc_ExistsByTag := proxy.svc_ExistsByTag memoryManifests;
     proxy.svc_GetByTag := proxy.svc_GetByTag memoryManifests |}.

Definition pmsFull : proxy.proxyManifestStore :=
  {| proxy.localManifests := fullManifests;
     proxy.remoteManifests := memoryManifests;
     proxy.repositoryName := "library/app" |}.

(** Cache providers are named; a repository-scoped cache is the pair of
    names. *)
Definition RepositoryScoped (provider name : string) : result string :=
  Ok (provider +:+ ":" +:+ name).

Definition options : list (@namespace.RegistryOption string) :=
  [namespace.EnableDelete;
   namespace.BlobDescriptorCacheProvider (Some "inmemory");
   namespace.BlobDescriptorCacheProvider (Some "redis");
   namespace.EnableRedirect].

Definition plainOptions : list (@namespace.RegistryOption string) :=
  [namespace.EnableDelete; namespace.DisableDigestResumption].

Definition failingOption : @namespace.RegistryOption string :=
  λ _, Err (errorString "bad option").

Definition plainRegistry : @namespace.registry string :=
  Eval vm_compute in
    match namespace.NewRegistry plainOptions with
    | Ok reg => reg
    | Err _ =>
        {| namespace.reg_blobStore :=
             {| namespace.bs_statter := namespace.blobStatter;
                namespace.bs_deleteEnabled := false;
                namespace.bs_removeParentsOnDelete := false |};
           namespace.reg_blobServer :=
             {| namespace.srv_statter := namespace.blobStatter;
                namespace.redirect := false |};
           namespace.reg_statter := namespace.blobStatter;
           namespace.blobDescriptorCacheProvider := None;
           namespace.deleteEnabled := false;
           namespace.resumableDigestEnabled := true |}
    end.

Definition plainRepository : @namespace.repository string string :=
  {| namespace.repo_registry := plainRegistry;
     namespace.repo_name := "library/app";
     namespace.descriptorCache := None |}.

(** A store that links [d1] as a manifest revision only, with its blob. *)
Definition revisionOnly : StorageDriver :=
  {| files :=
       <["/docker/registry/v2/repositories/library/app/_manifests/revisions/sha256/aa11/link" := d1]>
         (<["/docker/registry/v2/blobs/sha256/aa/aa11/data" := "{manifest}"]> ∅);
     outage := λ _ _, None;
     journal := [] |}.

End scenario_more.

(** * Properties *)

Local Open Scope list_scope.

(** ** The monad *)

Lemma bind_run {S A B} (m : M S A) (f : A → M S B) (s : S) :
  (m ≫= f) s = match m s with
               | (Ok a, s') => f a s'
               | (Err e, s') => (Err e, s')
               end.
Proof. reflexivity. Qed.

Lemma bind_Ok {S A B} (m : M S A) (f : A → M S B) s a s' :
  m s = (Ok a, s') → (m ≫= f) s = f a s'.
Proof. intros H. rewrite bind_run, H. reflexivity. Qed.

Lemma bind_Err {S A B} (m : M S A) (f : A → M S B) s e s' :
  m s = (Err e, s') → (m ≫= f) s = (Err e, s').
Proof. intros H. rewrite bind_run, H. reflexivity. Qed.

Lemma try_run {S A} (m : M S A) (s : S) :
  try m s = (Ok (m s).1, (m s).2).
Proof. unfold try. destruct (m s); reflexivity. Qed.

Ltac unfold_M :=
  unfold mbind, M_bind, mret, M_ret, fail, liftR, try in *.

(** ** Digests and link files *)

Lemma isHexChar_not_newline a :
  digest.isHexChar a = true → Ascii.eqb a "010"%char = false.
Proof.
  intros H. destruct (Ascii.eqb a "010"%char) eqn:E; [|reflexivity].
  apply Ascii.eqb_eq in E. subst a. discriminate H.
Qed.

Lemma isAlgChar_not_newline a :
  digest.isAlgChar a = true → Ascii.eqb a "010"%char = false.
Proof.
  intros H. destruct (Ascii.eqb a "010"%char) eqn:E; [|reflexivity].
  apply Ascii.eqb_eq in E. subst a. discriminate H.
Qed.

Lemma trimNewline_hex h :
  allChars digest.isHexChar h = true → storage.trimNewline h = h.
Proof.
  induction h as [|a h IH]; simpl; [reflexivity|].
  intros [Ha Hh]%andb_prop.
  rewrite (isHexChar_not_newline a Ha). simpl. by rewrite IH.
Qed.

Lemma trimNewline_split d : ∀ alg hex,
  digest.split d = Some (alg, hex) →
  allChars digest.isAlgChar alg = true →
  allChars digest.isHexChar hex = true →
  storage.trimNewline d = d.
Proof.
  induction d as [|a d IH]; simpl; intros alg hex Hs Halg Hhex; [done|].
  destruct (Ascii.eqb a ":"%char) eqn:Ecol.
  - apply Ascii.eqb_eq in Ecol. subst a. simplify_eq. simpl.
    by rewrite trimNewline_hex.
  - destruct (digest.split d) as [[alg' hex']|] eqn:Es; simplify_eq.
    simpl in Halg. apply andb_prop in Halg as [Ha Halg].
    rewrite (isAlgChar_not_newline a Ha). simpl.
    by rewrite (IH alg' hex).
Qed.

Lemma trimNewline_valid d :
  digest.valid d = true → storage.trimNewline d = d.
Proof.
  unfold digest.valid. destruct (digest.split d) as [[alg hex]|] eqn:Es; [|done].
  intros H. repeat (apply andb_prop in H as [H ?]).
  by apply (trimNewline_split d alg hex).
Qed.

Lemma Parse_valid d : digest.valid d = true → digest.Parse d = Ok d.
Proof. intros H. unfold digest.Parse, digest.Validate. by rewrite H. Qed.

Lemma Parse_Ok s d : digest.Parse s = Ok d → d = s ∧ digest.valid s = true.
Proof.
  unfold digest.Parse, digest.Validate.
  destruct (digest.valid s); [|done]. intros [= <-]. done.
Qed.

Lemma digestPathComponents_valid d ml c :
  storage.digestPathComponents d ml = Ok c → digest.valid d = true.
Proof.
  unfold storage.digestPathComponents, digest.Validate.
  destruct (digest.valid d); [done|]. discriminate.
Qed.

Lemma pathFor_indexEntry_valid name tag d p :
  storage.pathFor (storage.manifestTagIndexEntryLinkPathSpec name tag d) = Ok p →
  digest.valid d = true.
Proof.
  simpl. destruct (storage.digestPathComponents d false) eqn:E; [|done].
  intros _. by eapply digestPathComponents_valid.
Qed.

(** ** The storage driver *)

Lemma GetContent_run p d :
  storagedriver.GetContent p d =
    (match storagedriver.outage d storagedriver.GetContentOp p with
     | Some e => Err (DriverError e p)
     | None => match storagedriver.files d !! p with
               | Some c => Ok c
               | None => Err (PathNotFoundError p)
               end
     end, d).
Proof.
  unfold storagedriver.GetContent, storagedriver.guarded.
  destruct (storagedriver.outage d _ p); [done|].
  by destruct (storagedriver.files d !! p).
Qed.

Lemma PutContent_Ok p c d u d' :
  storagedriver.PutContent p c d = (Ok u, d') →
  storagedriver.files d' = <[p := c]> (storagedriver.files d)
  ∧ storagedriver.outage d' = storagedriver.outage d
  ∧ storagedriver.journal d' = storagedriver.journal d ++ [(p, c)].
Proof.
  unfold storagedriver.PutContent, storagedriver.guarded.
  destruct (storagedriver.outage d _ p); [done|].
  intros [= _ <-]. done.
Qed.

Lemma PutContent_Err p c d e d' :
  storagedriver.PutContent p c d = (Err e, d') → d' = d.
Proof.
  unfold storagedriver.PutContent, storagedriver.guarded.
  destruct (storagedriver.outage d _ p); [|done].
  by intros [= _ <-].
Qed.

Lemma readlink_run p d :
  storage.readlink p d =
    (match (storagedriver.GetContent p d).1 with
     | Ok content => digest.Parse (storage.trimNewline content)
     | Err e => Err e
     end, d).
Proof.
  unfold storage.readlink. rewrite bind_run, GetContent_run. simpl.
  destruct (storagedriver.outage d _ p); [done|].
  by destruct (storagedriver.files d !! p).
Qed.

Lemma readlink_state p d : (storage.readlink p d).2 = d.
Proof. by rewrite readlink_run. Qed.

(** ** The tag store: [Tag] and [Get] *)

Section TagStore.
Import storagedriver storage.

Implicit Types (ts : TagStore) (tag : string) (desc : Descriptor).
Implicit Types (s : StorageDriver).

(** The path spec of the index entry that [Tag] links; it is what the
    [linkPath] of [ts_linkedBlobStore ts tag] maps the digest to. *)
Local Abbreviation indexEntrySpec ts tag desc :=
  (manifestTagIndexEntryLinkPathSpec (name (ts_repository ts)) tag (Digest desc)).

Lemma pathFor_current ts tag :
  pathFor (manifestTagCurrentPathSpec (name (ts_repository ts)) tag)
  = Ok (tagLinkPath ts tag).
Proof. reflexivity. Qed.

Lemma linkBlob_run ts tag desc s :
  linkBlob (ts_linkedBlobStore ts tag) desc s =
    match pathFor (indexEntrySpec ts tag desc) with
    | Ok ip => PutContent ip (Digest desc) s
    | Err e => (Err e, s)
    end.
Proof.
  unfold linkBlob, link. rewrite bind_run. unfold liftR. simpl.
  by destruct (digestPathComponents (Digest desc) false).
Qed.

Lemma Tag_run ts tag desc s :
  Tag ts tag desc s =
    match linkBlob (ts_linkedBlobStore ts tag) desc s with
    | (Ok _, s1) => link (tagLinkPath ts tag) (Digest desc) s1
    | (Err e, s1) => (Err e, s1)
    end.
Proof. reflexivity. Qed.

(** A successful [Tag] is two writes of the digest. *)
Lemma Tag_Ok ts tag desc s u s' :
  Tag ts tag desc s = (Ok u, s') →
  ∃ ip, pathFor (indexEntrySpec ts tag desc) = Ok ip
    ∧ files s' = <[tagLinkPath ts tag := Digest desc]>
                   (<[ip := Digest desc]> (files s))
    ∧ outage s' = outage s
    ∧ journal s' = journal s ++ [(ip, Digest desc);
                                 (tagLinkPath ts tag, Digest desc)].
Proof.
  rewrite Tag_run, linkBlob_run.
  destruct (pathFor (indexEntrySpec ts tag desc)) as [ip|e] eqn:Eip; [|done].
  destruct (PutContent ip (Digest desc) s) as [[u1|e1] s1] eqn:E1; [|done].
  unfold link. intros E2.
  apply PutContent_Ok in E1 as (F1 & O1 & J1).
  apply PutContent_Ok in E2 as (F2 & O2 & J2).
  exists ip. split; [done|]. rewrite F2, F1, O2, O1, J2, J1.
  by rewrite <- app_assoc.
Qed.

Lemma Get_run ts tag s :
  Get ts tag s =
    (match (readlink (tagLinkPath ts tag) s).1 with
     | Ok revision => Ok (DescriptorOf revision)
     | Err (PathNotFoundError _) => Err (ErrTagUnknown tag)
     | Err err => Err err
     end, s).
Proof.
  unfold Get. rewrite bind_run, pathFor_current. unfold liftR.
  rewrite bind_run, try_run. rewrite readlink_state.
  destruct (readlink (tagLinkPath ts tag) s).1 as [rev|[]]; reflexivity.
Qed.

(** C1 (P2, I5).  After a successful [Tag(t, d)], in every later state in
    which the tag's current link has not been written again and the
    backend serves the read, [Get(t)] returns a descriptor whose digest is
    [d.Digest]. *)
Theorem Tag_then_Get ts tag desc s s' s'' :
  Tag ts tag desc s = (Ok tt, s') →
  files s'' !! tagLinkPath ts tag = files s' !! tagLinkPath ts tag →
  outage s'' GetContentOp (tagLinkPath ts tag) = None →
  ∃ got, Get ts tag s'' = (Ok got, s'') ∧ Digest got = Digest desc.
Proof.
  intros HTag Huntouched Hserved.
  apply Tag_Ok in HTag as (ip & Hip & Hfiles & _ & _).
  assert (Hvalid : digest.valid (Digest desc) = true)
    by (by eapply pathFor_indexEntry_valid).
  exists (DescriptorOf (Digest desc)). split; [|reflexivity].
  rewrite Get_run, readlink_run, GetContent_run. simpl.
  rewrite Hserved, Huntouched, Hfiles, lookup_insert_eq.
  by rewrite (trimNewline_valid _ Hvalid), (Parse_valid _ Hvalid).
Qed.


(** C8.  [Get] returns [ErrTagUnknown{tag}] exactly when reading the
    current link fails with a path-not-found error; every other read error
    is returned as it is; a successful read gives the descriptor that
    carries the linked digest. *)
Theorem Get_cases ts tag s :
  ((Get ts tag s).1 = Err (ErrTagUnknown tag)
     ↔ ∃ p, (readlink (tagLinkPath ts tag) s).1 = Err (PathNotFoundError p))
  ∧ (∀ e, (readlink (tagLinkPath ts tag) s).1 = Err e →
       isPathNotFound e = false → (Get ts tag s).1 = Err e)
  ∧ (∀ revision, (readlink (tagLinkPath ts tag) s).1 = Ok revision →
       (Get ts tag s).1 = Ok (DescriptorOf revision)
       ∧ Digest (DescriptorOf revision) = revision).
Proof.
  rewrite Get_run. simpl. split; [split|split].
  - destruct (readlink (tagLinkPath ts tag) s).1 as [rev|e] eqn:E; [done|].
    destruct e; try done; [eauto|].
    (* the read itself cannot fail with ErrTagUnknown *)
    exfalso. rewrite readlink_run, GetContent_run in E. simpl in E.
    destruct (outage s GetContentOp _); [done|].
    destruct (files s !! _) as [c|]; [|done].
    unfold digest.Parse, digest.Validate in E.
    by destruct (digest.valid _).
  - intros [p ->]. done.
  - intros e -> Hne. by destruct e.
  - intros revision ->. done.
Qed.

End TagStore.

(** ** The tag store: [All] and [Lookup] *)

(** The order of [sort.Strings] is the lexicographic order on the bytes. *)
Lemma String_le_nil t : String.le "" t.
Proof. unfold String.le, String.leb. by destruct t. Qed.

Lemma String_le_cons a s b t :
  String.le (String a s) (String b t)
  ↔ (N_of_ascii a < N_of_ascii b)%N ∨ (a = b ∧ String.le s t).
Proof.
  unfold String.le, String.leb. simpl. unfold Ascii.compare.
  destruct (N.compare_spec (N_of_ascii a) (N_of_ascii b)) as [E|E|E]; simpl.
  - assert (a = b) as ->.
    { rewrite <- (ascii_N_embedding a), <- (ascii_N_embedding b). by rewrite E. }
    split; [by right|]. intros [H|[_ H]]; [lia|done].
  - split; [by left|done].
  - split; [done|]. intros [H|[-> _]]; lia.
Qed.

Section TagStoreLookup.
Import storagedriver storage.

Implicit Types (ts : TagStore) (tag : string) (desc : Descriptor).
Implicit Types (s : StorageDriver).

Lemma List_state p s : (List p s).2 = s.
Proof.
  unfold List, guarded. destruct (outage s ListOp p); [done|].
  by destruct (children (files s) p).
Qed.

Lemma All_run ts s :
  All ts s =
    (match (List (repoPath (name (ts_repository ts)) +:+ "/_manifests/tags") s).1 with
     | Ok entries => Ok (sort_Strings (map (λ entry, (path_Split entry).2) entries))
     | Err (PathNotFoundError _) => Err (ErrRepositoryUnknown (name (ts_repository ts)))
     | Err err => Err err
     end, s).
Proof.
  unfold All. rewrite bind_run. unfold liftR. simpl pathFor. cbv iota beta.
  rewrite bind_run, try_run, List_state.
  destruct (List _ s).1 as [entries|[]]; reflexivity.
Qed.

(** C7.  Whenever the backend lists the repository's tags directory,
    [All] returns the names found there in ascending lexicographic order:
    the result is sorted for the byte-wise order on strings and is a
    rearrangement of the file names of the listed entries. *)
Theorem All_sorted ts s p entries :
  pathFor (manifestTagsPathSpec (name (ts_repository ts))) = Ok p →
  (List p s).1 = Ok entries →
  ∃ tags, All ts s = (Ok tags, s)
    ∧ StronglySorted String.le tags
    ∧ tags ≡ₚ map (λ entry, (path_Split entry).2) entries.
Proof.
  intros [= <-] HList. rewrite All_run, HList.
  eexists. split; [reflexivity|]. split.
  - apply StronglySorted_merge_sort; apply _.
  - apply merge_sort_Permutation.
Qed.

Lemma lookupTag_run ts desc tag s :
  lookupTag ts desc tag s =
    (match (readlink (tagLinkPath ts tag) s).1 with
     | Ok tagDigest =>
         Ok (if decide (tagDigest = Digest desc) then Some tag else None)
     | Err (PathNotFoundError _) => Ok None
     | Err err => Err err
     end, s).
Proof.
  unfold lookupTag. rewrite bind_run, try_run, readlink_state.
  destruct (readlink (tagLinkPath ts tag) s).1 as [dg|[]]; try reflexivity.
  simpl. by destruct (decide (dg = Digest desc)).
Qed.

Lemma run_lookupTag ts desc s : ∀ allTags sent first,
  (∀ tag e, tag ∈ allTags → (readlink (tagLinkPath ts tag) s).1 = Err e →
     isPathNotFound e = true) →
  errgroup.run (map (lookupTag ts desc) allTags) sent first s
  = ((sent ++ filter (pointsAt ts desc s) allTags, first), s).
Proof.
  induction allTags as [|tag allTags IH]; intros sent first Hreads; simpl.
  - by rewrite app_nil_r.
  - rewrite lookupTag_run.
    assert (Hrest : ∀ t e, t ∈ allTags →
              (readlink (tagLinkPath ts t) s).1 = Err e → isPathNotFound e = true)
      by (intros t e Ht; apply Hreads; by right).
    destruct (decide (pointsAt ts desc s tag)) as [Hp|Hnp].
    + rewrite filter_cons_True by done. unfold pointsAt in Hp. rewrite Hp.
      rewrite decide_True by done. rewrite IH by done.
      by rewrite <- app_assoc.
    + rewrite filter_cons_False by done. unfold pointsAt in Hnp.
      destruct (readlink (tagLinkPath ts tag) s).1 as [dg|e] eqn:E.
      * rewrite decide_False by congruence. by rewrite IH.
      * pose proof (Hreads tag e (list_elem_of_here _ _) E) as Hnf.
        destruct e; try done. by rewrite IH.
Qed.


(** C10.  When the repository has no tags directory, so that [All] fails
    with [ErrRepositoryUnknown], [Lookup] does not pass the error on: it
    returns the empty list and no error, whatever the descriptor (and
    whatever the concurrency factor). *)
Theorem Lookup_repository_unknown ts desc s nm :
  (All ts s).1 = Err (ErrRepositoryUnknown nm) →
  Lookup ts desc s = Returns (Ok [], s).
Proof.
  intros HAll. unfold Lookup. rewrite All_run in *. simpl in HAll.
  by rewrite HAll.
Qed.

End TagStoreLookup.

(** ** The manifest service of a repository *)

Section ManifestLinks.
Import storagedriver registry.

Implicit Types (repo : repository) (ms : manifestStore).
Implicit Types (s : StorageDriver).


Lemma Stat_state p s : (storagedriver.Stat p s).2 = s.
Proof.
  unfold storagedriver.Stat, guarded. destruct (outage s StatOp p); [done|].
  by destruct (files s !! p).
Qed.


End ManifestLinks.

(** ** The proxy manifest store *)

Section ProxyManifestStore.
Import proxy.

Context {SignedManifest : Type}.
Context (Payload : SignedManifest → result bytes).
Context (FromBytes : bytes → result digest.Digest).
Context {L R : Type}.

Implicit Types (pms : @proxyManifestStore SignedManifest L R).
Implicit Types (w : @World SignedManifest L R).

(** C3.  [GetByTag] asks the remote registry first: when the remote call
    fails, its error is returned and the local registry and the scheduler
    are not touched.  When it succeeds, the digest of the payload is looked
    up locally: if the manifest exists locally, the fetched manifest is
    returned and neither [Put] nor the scheduler is called; otherwise the
    manifest is put into the local registry and an entry for the
    repository is handed to the scheduler. *)
Theorem GetByTag_remote_first pms tag w :
  (∀ e r',
     svc_GetByTag (remoteManifests pms) tag (remote w) = (Err e, r') →
     GetByTag Payload FromBytes pms tag w
     = (Err e, {| local := local w; remote := r';
                  scheduler := scheduler w;
                  history := history w ++ [Remote (CallGetByTag tag)] |}))
  ∧ (∀ sm r' payload digestFromRemote,
       svc_GetByTag (remoteManifests pms) tag (remote w) = (Ok sm, r') →
       Payload sm = Ok payload →
       FromBytes payload = Ok digestFromRemote →
       (∀ l',
          svc_Exists (localManifests pms) digestFromRemote (local w)
            = (Ok true, l') →
          GetByTag Payload FromBytes pms tag w
          = (Ok sm, {| local := l'; remote := r';
                       scheduler := scheduler w;
                       history := history w ++
                         [Remote (CallGetByTag tag);
                          Local (CallExists digestFromRemote)] |}))
       ∧ (∀ l' l'',
            svc_Exists (localManifests pms) digestFromRemote (local w)
              = (Ok false, l') →
            svc_Put (localManifests pms) sm l' = (Ok tt, l'') →
            GetByTag Payload FromBytes pms tag w
            = (Ok sm, {| local := l''; remote := r';
                         scheduler := scheduler w ++
                           [(repositoryName pms, repositoryTTL)];
                         history := history w ++
                           [Remote (CallGetByTag tag);
                            Local (CallExists digestFromRemote);
                            Local (CallPut sm);
                            AddManifest (repositoryName pms) repositoryTTL] |}))).
Proof.
  split.
  - intros e r' Hremote.
    unfold GetByTag. rewrite bind_run. unfold onRemote. by rewrite Hremote.
  - intros sm r' payload dg Hremote Hpayload Hdigest. split.
    + intros l' Hexists.
      unfold GetByTag. rewrite bind_run. unfold onRemote at 1. rewrite Hremote.
      rewrite bind_run. unfold liftR at 1. rewrite Hpayload.
      rewrite bind_run. unfold liftR at 1. rewrite Hdigest.
      rewrite bind_run. unfold onLocal at 1. simpl. rewrite Hexists.
      unfold mret, M_ret. by rewrite <- app_assoc.
    + intros l' l'' Hexists Hput.
      unfold GetByTag. rewrite bind_run. unfold onRemote at 1. rewrite Hremote.
      rewrite bind_run. unfold liftR at 1. rewrite Hpayload.
      rewrite bind_run. unfold liftR at 1. rewrite Hdigest.
      rewrite bind_run. unfold onLocal at 1. simpl. rewrite Hexists.
      rewrite bind_run. unfold onLocal at 1. simpl. rewrite Hput.
      rewrite bind_run. unfold scheduler_AddManifest. simpl.
      unfold mret, M_ret. by repeat rewrite <- app_assoc.
Qed.

(** C4.  [Get] returns the local manifest when the local lookup
    succeeds, and only the local registry is asked.  When the local lookup
    fails, the manifest is fetched from the remote registry, stored with
    the local registry's [Put], and an eviction entry with [repositoryTTL]
    is handed to the scheduler; [repositoryTTL] is ten minutes. *)
Theorem Get_local_first pms dgst w :
  (∀ sm l',
     svc_Get (localManifests pms) dgst (local w) = (Ok sm, l') →
     Get pms dgst w
     = (Ok sm, {| local := l'; remote := remote w;
                  scheduler := scheduler w;
                  history := history w ++ [Local (CallGet dgst)] |}))
  ∧ (∀ e l1 sm r' l2,
       svc_Get (localManifests pms) dgst (local w) = (Err e, l1) →
       svc_Get (remoteManifests pms) dgst (remote w) = (Ok sm, r') →
       svc_Put (localManifests pms) sm l1 = (Ok tt, l2) →
       Get pms dgst w
       = (Ok sm, {| local := l2; remote := r';
                    scheduler := scheduler w ++
                      [(repositoryName pms, repositoryTTL)];
                    history := history w ++
                      [Local (CallGet dgst); Remote (CallGet dgst);
                       Local (CallPut sm);
                       AddManifest (repositoryName pms) repositoryTTL] |}))
  ∧ repositoryTTL = (10 * 60 * 1000000000)%Z.
Proof.
  split; [|split; [|reflexivity]].
  - intros sm l' Hlocal.
    unfold Get. rewrite bind_run. unfold try, onLocal. by rewrite Hlocal.
  - intros e l1 sm r' l2 Hlocal Hremote Hput.
    unfold Get. rewrite bind_run. unfold try, onLocal at 1. rewrite Hlocal.
    rewrite bind_run. unfold onRemote at 1. simpl. rewrite Hremote.
    rewrite bind_run. unfold onLocal at 1. simpl. rewrite Hput.
    rewrite bind_run. unfold scheduler_AddManifest. simpl.
    unfold mret, M_ret. by repeat rewrite <- app_assoc.
Qed.

(** C9.  [Put] and [Delete] of the proxy manifest store fail with the
    error "Not supported" for every input and in every state, and leave
    the local registry, the remote registry and the scheduler as they
    were. *)
Theorem Put_Delete_not_supported pms w :
  (∀ manifest, Put pms manifest w = (Err (errorString "Not supported"), w))
  ∧ (∀ dgst, Delete pms dgst w = (Err (errorString "Not supported"), w)).
Proof. split; reflexivity. Qed.

End ProxyManifestStore.

(** ** The properties at work on the scenarios *)

Section Scenarios.
Import storagedriver scenario.

(** [Tag("v1", d1)] on the empty store, then [Get("v1")]. *)
Lemma Tag_then_Get_witness :
  storage.Tag ts "v1" (DescriptorOf d1) emptyDriver = (Ok tt, s1)
  ∧ ∃ got, storage.Get ts "v1" s1 = (Ok got, s1) ∧ Digest got = d1.
Proof.
  split; [reflexivity|].
  apply (Tag_then_Get ts "v1" (DescriptorOf d1) emptyDriver s1 s1);
    reflexivity.
Defined.


(** An unknown tag and a known tag. *)
Lemma Get_cases_witness :
  (storage.Get ts "v2" s1).1 = Err (ErrTagUnknown "v2")
  ∧ (storage.Get ts "v1" s1).1 = Ok (DescriptorOf d1).
Proof.
  split.
  - destruct (Get_cases ts "v2" s1) as ([_ Hunknown] & _ & _).
    apply Hunknown. exists (storage.tagLinkPath ts "v2"). reflexivity.
  - destruct (Get_cases ts "v1" s1) as (_ & _ & Hknown).
    apply (Hknown d1). reflexivity.
Defined.

(** The backend lists "alpha", "v1", "beta", in this order. *)
Lemma All_sorted_witness :
  ∃ tags, storage.All ts s4 = (Ok tags, s4)
    ∧ StronglySorted String.le tags
    ∧ tags ≡ₚ map (λ entry, (path_Split entry).2)
                [tagsPath +:+ "/alpha"; tagsPath +:+ "/v1"; tagsPath +:+ "/beta"].
Proof.
  apply (All_sorted ts s4 tagsPath); reflexivity.
Defined.


(** No tags directory: [Lookup] returns the empty list, even on the store
    whose concurrency factor is zero. *)
Lemma Lookup_repository_unknown_witness :
  storage.Lookup tsZero (DescriptorOf d1) emptyDriver = Returns (Ok [], emptyDriver).
Proof.
  apply (Lookup_repository_unknown tsZero (DescriptorOf d1) emptyDriver "library/app").
  reflexivity.
Defined.


(** The proxy: an upstream without the tag, a warm cache, a cold cache. *)
Lemma GetByTag_remote_first_witness :
  (proxy.GetByTag Payload FromBytes pms "latest" offline).1
    = Err (errorString "unknown tag")
  ∧ (proxy.GetByTag Payload FromBytes pms "latest" warm).1 = Ok "m1"
  ∧ proxy.scheduler (proxy.GetByTag Payload FromBytes pms "latest" cold).2
    = [("library/app", proxy.repositoryTTL)].
Proof.
  pose proof (GetByTag_remote_first Payload FromBytes pms "latest") as H.
  split; [|split].
  - destruct (H offline) as [Herr _].
    by rewrite (Herr (errorString "unknown tag") (∅, ∅) eq_refl).
  - destruct (H warm) as [_ Hok].
    destruct (Hok "m1" upstream "m1" "toy:m1" eq_refl eq_refl eq_refl) as [Hhit _].
    by rewrite (Hhit _ eq_refl).
  - destruct (H cold) as [_ Hok].
    destruct (Hok "m1" upstream "m1" "toy:m1" eq_refl eq_refl eq_refl) as [_ Hmiss].
    by rewrite (Hmiss _ _ eq_refl eq_refl).
Defined.

Lemma Get_local_first_witness :
  (proxy.Get pms "toy:m1" warm).1 = Ok "m1"
  ∧ proxy.history (proxy.Get pms "toy:m1" warm).2
    = [proxy.Local (proxy.CallGet "toy:m1")]
  ∧ proxy.scheduler (proxy.Get pms "toy:m1" cold).2
    = [("library/app", 600000000000%Z)].
Proof.
  destruct (Get_local_first pms "toy:m1" warm) as (Hhit & _ & _).
  destruct (Get_local_first pms "toy:m1" cold) as (_ & Hmiss & HTTL).
  rewrite (Hhit "m1" _ eq_refl).
  rewrite (Hmiss (errorString "unknown manifest") _ "m1" _ _ eq_refl eq_refl eq_refl).
  rewrite HTTL. done.
Defined.

(** With the variable set to zero the store keeps the factor 0, and a
    [Lookup] that has a tag to read does not return. *)
Example Lookup_zero_factor_blocks :
  storage.lookupConcurrencyFactor tsZero = 0%Z
  ∧ storage.Lookup tsZero (DescriptorOf d2) s5 = Blocks.
Proof. split; reflexivity. Qed.

(** The default factor. *)
Example NewStore_default_factor :
  storage.lookupConcurrencyFactor ts = 64%Z.
Proof. reflexivity. Qed.

(** Spec scenario 3: [Tag("v1", d1)], then [Tag("v1", d2)]. *)
Example tag_update_scenario :
  let s2 := after (storage.Tag ts "v1" (DescriptorOf d2)) s1 in
  (storage.Get ts "v1" s2).1 = Ok (DescriptorOf d2)
  ∧ storage.Lookup ts (DescriptorOf d2) s2 = Returns (Ok ["v1"], s2)
  ∧ storage.Lookup ts (DescriptorOf d1) s2 = Returns (Ok [], s2).
Proof. vm_compute. done. Qed.

End Scenarios.


(** * Further properties of the tag store *)

(** ** Strings as paths *)

Lemma string_app_cons a s t : String a s +:+ t = String a (s +:+ t).
Proof. reflexivity. Qed.

Lemma string_app_assoc s1 s2 s3 : (s1 +:+ s2) +:+ s3 = s1 +:+ (s2 +:+ s3).
Proof.
  induction s1 as [|a s1 IH]; [reflexivity|].
  rewrite !string_app_cons. by rewrite IH.
Qed.

Lemma prefix_app s t : String.prefix s (s +:+ t) = true.
Proof.
  induction s as [|a s IH]; [by destruct t|].
  rewrite string_app_cons. simpl. by destruct (ascii_dec a a).
Qed.

Lemma chars_app s t :
  list_ascii_of_string (s +:+ t)
  = list_ascii_of_string s ++ list_ascii_of_string t.
Proof.
  induction s as [|a s IH]; [reflexivity|].
  rewrite string_app_cons. simpl. by rewrite IH.
Qed.

Lemma chars_inj s t : list_ascii_of_string s = list_ascii_of_string t → s = t.
Proof.
  intros H. rewrite <- (string_of_list_ascii_of_string s),
              <- (string_of_list_ascii_of_string t). by rewrite H.
Qed.

(** Two paths with the same tail of equal length agree on what precedes it. *)
Lemma string_app_inj_tail s1 s2 t1 t2 :
  String.length t1 = String.length t2 →
  s1 +:+ t1 = s2 +:+ t2 → s1 = s2 ∧ t1 = t2.
Proof.
  intros Hlen H. apply (f_equal list_ascii_of_string) in H.
  rewrite !chars_app in H. apply app_inj_2 in H as [H1 H2].
  - split; by apply chars_inj.
  - clear H. revert t2 Hlen.
    induction t1 as [|a t1 IH]; intros [|b t2]; simpl; try done.
    intros [= H]. f_equal. by apply IH.
Qed.

Lemma last_chars_allChars (p : ascii → bool) s :
  allChars p s = true → s ≠ "" →
  ∃ a, last (list_ascii_of_string s) = Some a ∧ p a = true.
Proof.
  induction s as [|a s IH]; [done|]. simpl. intros [Ha Hs]%andb_prop _.
  destruct s as [|b s]; [by exists a|].
  destruct (IH Hs) as (c & Hc & Hpc); [done|]. exists c. split; [|done].
  simpl in *. exact Hc.
Qed.

(** ** Paths of the tag store *)

Section TagStorePaths.
Import storagedriver storage.

Implicit Types (ts : TagStore) (tag : string) (desc : Descriptor).
Implicit Types (s : StorageDriver).

Lemma tagLinkPath_eq ts tag :
  tagLinkPath ts tag
  = repoPath (name (ts_repository ts)) +:+ "/_manifests/tags/" +:+ tag
      +:+ "/current/link".
Proof. reflexivity. Qed.

(** Distinct tags have distinct current links. *)
Lemma tagLinkPath_inj ts tag other :
  tagLinkPath ts tag = tagLinkPath ts other → tag = other.
Proof.
  rewrite !tagLinkPath_eq. intros H.
  apply (inj (String.app _)) in H. apply (inj (String.app _)) in H.
  by apply string_app_inj_tail in H as [H _].
Qed.

Lemma digestPathComponents_link d c :
  digestPathComponents d false = Ok c →
  ∃ alg hex, c = alg +:+ "/" +:+ hex
    ∧ hex ≠ "" ∧ allChars digest.isHexChar hex = true.
Proof.
  unfold digestPathComponents, digest.Validate, digest.valid.
  destruct (digest.split d) as [[alg hex]|]; [|done].
  destruct (digest.nonEmpty alg && allChars digest.isAlgChar alg
            && digest.nonEmpty hex && allChars digest.isHexChar hex) eqn:E; [|done].
  intros [= <-]. exists alg, hex. split; [done|].
  repeat (apply andb_prop in E as [E ?]). split; [|done].
  by destruct hex.
Qed.

(** No index entry of any tag is the current link of a tag. *)
Lemma indexEntry_not_current ts tag other d ip :
  pathFor (manifestTagIndexEntryLinkPathSpec (name (ts_repository ts)) tag d) = Ok ip →
  ip ≠ tagLinkPath ts other.
Proof.
  simpl. destruct (digestPathComponents d false) as [c|e] eqn:Ec; [|done].
  intros [= <-]. apply digestPathComponents_link in Ec as (alg & hex & -> & Hne & Hhex).
  rewrite tagLinkPath_eq. intros H.
  apply (inj (String.app _)) in H. apply (inj (String.app _)) in H.
  assert (H' : (tag +:+ "/index/" +:+ alg +:+ "/" +:+ hex) +:+ "/link"
               = (other +:+ "/current") +:+ "/link").
  { rewrite !string_app_assoc. rewrite !string_app_assoc in H. exact H. }
  apply string_app_inj_tail in H' as [H' _]; [|done].
  apply (f_equal (λ x, last (list_ascii_of_string x))) in H'.
  rewrite !chars_app in H'. rewrite !app_assoc in H'.
  destruct (last_chars_allChars _ hex Hhex Hne) as (a & Ha & Hpa).
  rewrite last_app, Ha in H'.
  rewrite last_app in H'. simpl in H'.
  injection H' as ->. discriminate Hpa.
Qed.

End TagStorePaths.

(** ** [Untag], [Tag] and the other tags *)

Section TagStoreWrites.
Import storagedriver storage.

Implicit Types (ts : TagStore) (tag : string) (desc : Descriptor).
Implicit Types (s : StorageDriver).

Lemma Delete_Ok p s u s' :
  Delete p s = (Ok u, s') →
  files s' = filter (λ kv, below p kv.1 = false) (files s)
  ∧ outage s' = outage s.
Proof.
  unfold Delete, guarded. destruct (outage s DeleteOp p); [done|].
  destruct (decide (_ = ∅)); [done|]. by intros [= _ <-].
Qed.

Lemma tagLinkPath_below ts tag :
  below (repoPath (name (ts_repository ts)) +:+ "/_manifests/tags/" +:+ tag)
        (tagLinkPath ts tag) = true.
Proof.
  unfold below. apply orb_true_intro. right.
  rewrite tagLinkPath_eq.
  replace (repoPath (name (ts_repository ts)) +:+ "/_manifests/tags/" +:+ tag
             +:+ "/current/link")
    with (((repoPath (name (ts_repository ts)) +:+ "/_manifests/tags/" +:+ tag)
             +:+ "/") +:+ "current/link").
  - apply prefix_app.
  - by rewrite !string_app_assoc.
Qed.

(** X1.  After a successful [Untag(tag)], [Get(tag)] fails with
    [ErrTagUnknown{tag}] (the backend serving the read). *)
Theorem Untag_then_Get ts tag s s' :
  Untag ts tag s = (Ok tt, s') →
  outage s' GetContentOp (tagLinkPath ts tag) = None →
  Get ts tag s' = (Err (ErrTagUnknown tag), s').
Proof.
  unfold Untag. rewrite bind_run. unfold liftR. simpl pathFor. cbv iota beta.
  intros (Hfiles & _)%Delete_Ok Hserved.
  rewrite Get_run, readlink_run, GetContent_run. simpl.
  rewrite Hserved, Hfiles.
  replace (filter _ (files s) !! tagLinkPath ts tag) with (@None bytes); [done|].
  symmetry. apply map_lookup_filter_None. right. intros c _. simpl.
  by rewrite tagLinkPath_below.
Qed.

(** What a call of [Tag] can have changed, whatever it returned. *)
Lemma Tag_frame ts tag desc s r s' :
  Tag ts tag desc s = (r, s') →
  outage s' = outage s
  ∧ ∀ p, p ≠ tagLinkPath ts tag →
      (∀ ip, pathFor (manifestTagIndexEntryLinkPathSpec
                        (name (ts_repository ts)) tag (Digest desc)) = Ok ip →
             p ≠ ip) →
      files s' !! p = files s !! p.
Proof.
  rewrite Tag_run, linkBlob_run.
  destruct (pathFor _) as [ip|e] eqn:Eip.
  - destruct (PutContent ip (Digest desc) s) as [[u1|e1] s1] eqn:E1.
    + apply PutContent_Ok in E1 as (F1 & O1 & _).
      unfold link.
      destruct (PutContent (tagLinkPath ts tag) (Digest desc) s1)
        as [[u2|e2] s2] eqn:E2; intros [= <- <-].
      * apply PutContent_Ok in E2 as (F2 & O2 & _).
        split; [congruence|]. intros p Hcp Hip.
        rewrite F2, lookup_insert_ne by (intros <-; by apply Hcp).
        rewrite F1, lookup_insert_ne; [done|]. intros <-.
        exact (Hip _ eq_refl eq_refl).
      * apply PutContent_Err in E2 as ->.
        split; [done|]. intros p Hcp Hip.
        rewrite F1, lookup_insert_ne; [done|]. intros <-.
        exact (Hip _ eq_refl eq_refl).
    + apply PutContent_Err in E1 as ->. by intros [= <- <-].
  - by intros [= <- <-].
Qed.

(** X2.  [Tag] on one tag, successful or not, never changes what [Get]
    returns for another tag. *)
Theorem Tag_keeps_other_tags ts tag desc other s r s' :
  Tag ts tag desc s = (r, s') →
  other ≠ tag →
  (Get ts other s').1 = (Get ts other s).1.
Proof.
  intros HTag Hother. apply Tag_frame in HTag as [Hout Hfiles].
  rewrite !Get_run, !readlink_run, !GetContent_run. simpl.
  rewrite Hout, Hfiles; [done|..].
  - intros H. by apply tagLinkPath_inj in H.
  - intros ip Hip H. by eapply indexEntry_not_current.
Qed.

(** X3.  Tagging again with the same descriptor changes no stored file:
    when [Tag] has succeeded and a later call with the same tag and
    descriptor, on a store holding the same files, succeeds as well, the
    files after the second call are the files after the first. *)
Theorem Tag_again ts tag desc s s' s1 s'' :
  Tag ts tag desc s = (Ok tt, s') →
  files s1 = files s' →
  Tag ts tag desc s1 = (Ok tt, s'') →
  files s'' = files s'.
Proof.
  intros (ip & Hip & Hfiles & _ & _)%Tag_Ok Hsame
         (ip' & Hip' & Hfiles' & _ & _)%Tag_Ok.
  assert (ip' = ip) as -> by congruence.
  rewrite Hfiles', Hsame, Hfiles. apply map_eq. intros k.
  destruct (decide (k = tagLinkPath ts tag)) as [->|Hcp].
  { do 2 rewrite lookup_insert_eq. reflexivity. }
  assert (Hcp' : tagLinkPath ts tag ≠ k) by (by intros <-).
  rewrite (lookup_insert_ne _ (tagLinkPath ts tag) k) by done.
  rewrite (lookup_insert_ne _ (tagLinkPath ts tag) k) by done.
  destruct (decide (k = ip)) as [->|Hk].
  { do 2 rewrite lookup_insert_eq. reflexivity. }
  assert (Hk' : ip ≠ k) by (by intros <-).
  rewrite (lookup_insert_ne _ ip k) by done.
  rewrite (lookup_insert_ne _ (tagLinkPath ts tag) k) by done.
  reflexivity.
Qed.

(** X4.  [Tag] is not atomic: when the index entry has been linked and
    overwriting the current link fails, [Tag] returns that error, the index
    entry stays written and the current link is what it was. *)
Theorem Tag_current_link_refused ts tag desc s s1 e s2 :
  linkBlob (ts_linkedBlobStore ts tag) desc s = (Ok tt, s1) →
  link (tagLinkPath ts tag) (Digest desc) s1 = (Err e, s2) →
  Tag ts tag desc s = (Err e, s2)
  ∧ files s2 !! tagLinkPath ts tag = files s !! tagLinkPath ts tag
  ∧ ∃ ip, pathFor (manifestTagIndexEntryLinkPathSpec
                     (name (ts_repository ts)) tag (Digest desc)) = Ok ip
      ∧ files s2 !! ip = Some (Digest desc).
Proof.
  intros Hindex Hcurrent. split; [by rewrite Tag_run, Hindex|].
  apply PutContent_Err in Hcurrent as ->.
  rewrite linkBlob_run in Hindex.
  destruct (pathFor _) as [ip|e0] eqn:Eip; [|done].
  apply PutContent_Ok in Hindex as (F1 & _ & _). rewrite F1. split.
  - apply lookup_insert_ne. by eapply indexEntry_not_current.
  - exists ip. by rewrite lookup_insert_eq.
Qed.

End TagStoreWrites.

(** ** The readers: [Get], [All], [Lookup] *)

Section TagStoreReaders.
Import storagedriver storage.

Implicit Types (ts : TagStore) (tag : string) (desc : Descriptor).
Implicit Types (s : StorageDriver).

(** The group of [Lookup], reads failing or not: what was sent, and which
    error was recorded first. *)
Lemma run_lookupTag_first ts desc s : ∀ allTags sent first,
  ∃ first',
    errgroup.run (map (lookupTag ts desc) allTags) sent first s
    = ((sent ++ filter (pointsAt ts desc s) allTags, first'), s)
    ∧ match first, first' with
      | Some e0, _ => first' = Some e0
      | None, Some e =>
          ∃ tag, tag ∈ allTags
            ∧ (readlink (tagLinkPath ts tag) s).1 = Err e
            ∧ isPathNotFound e = false
      | None, None =>
          ∀ tag e, tag ∈ allTags →
            (readlink (tagLinkPath ts tag) s).1 = Err e →
            isPathNotFound e = true
      end.
Proof.
  induction allTags as [|tag allTags IH]; intros sent first; simpl.
  - exists first. rewrite app_nil_r. split; [done|].
    destruct first; [done|]. intros tag e Hin. by apply elem_of_nil in Hin.
  - rewrite lookupTag_run.
    destruct (decide (pointsAt ts desc s tag)) as [Hp|Hnp].
    + rewrite filter_cons_True by done. unfold pointsAt in Hp. rewrite Hp.
      rewrite decide_True by done.
      destruct (IH (sent ++ [tag]) first) as (first' & Hrun & Hfirst).
      exists first'. rewrite Hrun, <- app_assoc. split; [done|].
      destruct first as [e0|]; [done|]. destruct first' as [e|].
      * destruct Hfirst as (t & Ht & Hr & Hn). exists t.
        split; [by right|done].
      * intros t e [->|Ht]%elem_of_cons Hr; [congruence|by eapply Hfirst].
    + rewrite filter_cons_False by done. unfold pointsAt in Hnp.
      destruct (readlink (tagLinkPath ts tag) s).1 as [dg|e] eqn:E.
      * rewrite decide_False by congruence.
        destruct (IH sent first) as (first' & Hrun & Hfirst).
        exists first'. rewrite Hrun. split; [done|].
        destruct first as [e0|]; [done|]. destruct first' as [e|].
        -- destruct Hfirst as (t & Ht & Hr & Hn). exists t.
           split; [by right|done].
        -- intros t e [->|Ht]%elem_of_cons Hr; [congruence|by eapply Hfirst].
      * destruct (isPathNotFound e) eqn:Enf.
        -- destruct e; try done.
           destruct (IH sent first) as (first' & Hrun & Hfirst).
           exists first'. rewrite Hrun. split; [done|].
           destruct first as [e0|]; [done|]. destruct first' as [e|].
           ++ destruct Hfirst as (t & Ht & Hr & Hn). exists t.
              split; [by right|done].
           ++ intros t e [->|Ht]%elem_of_cons Hr;
                [by injection (eq_trans (eq_sym E) Hr) as <-|by eapply Hfirst].
        -- destruct (IH sent (Some (match first with
                                     | Some e0 => e0
                                     | None => e
                                     end))) as (first' & Hrun & Hfirst).
           exists first'.
           assert (Hstep :
             match e with
             | PathNotFoundError _ => (Ok None, s)
             | _ => (@Err (option string) e, s)
             end = (Err e, s)) by (by destruct e).
           split.
           ++ destruct e; try done; destruct first; exact Hrun.
           ++ destruct first as [e0|]; [done|]. subst first'.
              exists tag. split; [by left|done].
Qed.

(** X5.  [Get], [All] and [Lookup] never change the store, whether they
    succeed or fail. *)
Theorem readers_leave_store ts s :
  (∀ tag, (Get ts tag s).2 = s)
  ∧ (All ts s).2 = s
  ∧ (∀ desc r s', Lookup ts desc s = Returns (r, s') → s' = s).
Proof.
  split; [|split].
  - intros tag. by rewrite Get_run.
  - by rewrite All_run.
  - intros desc r s'. unfold Lookup. rewrite All_run.
    set (listing := (List _ s).1).
    destruct listing as [entries|e].
    + unfold errgroup.goAll.
      destruct (run_lookupTag_first ts desc s
                  (sort_Strings (map (λ entry, (path_Split entry).2) entries))
                  [] None) as (first' & Hrun & _).
      rewrite Hrun.
      destruct (map (lookupTag ts desc) _);
        [|destruct (errgroup.admits _); [|done]];
        destruct first'; by intros [= _ <-].
    + destruct e; simpl; by intros [= _ <-].
Qed.

(** X6.  An error returned by [Lookup] is either the error of listing the
    tags (other than the repository being unknown) or the error, other than
    path-not-found, of reading the current link of one of the tags. *)
Theorem Lookup_error_origin ts desc s e s' :
  Lookup ts desc s = Returns (Err e, s') →
  ((All ts s).1 = Err e ∧ ∀ nm, e ≠ ErrRepositoryUnknown nm)
  ∨ (∃ allTags tag, (All ts s).1 = Ok allTags ∧ tag ∈ allTags
       ∧ (readlink (tagLinkPath ts tag) s).1 = Err e
       ∧ isPathNotFound e = false).
Proof.
  unfold Lookup. destruct (All ts s) as [[allTags|e0] s1] eqn:EAll.
  - assert (s1 = s) as ->.
    { rewrite All_run in EAll. by injection EAll. }
    unfold errgroup.goAll.
    destruct (run_lookupTag_first ts desc s allTags [] None)
      as (first' & Hrun & Hfirst).
    rewrite Hrun. intros H. right. exists allTags.
    assert (first' = Some e) as ->.
    { destruct (map (lookupTag ts desc) allTags);
        [|destruct (errgroup.admits _); [|done]];
        destruct first'; by simplify_eq. }
    destruct Hfirst as (tag & Hin & Hr & Hn). by exists tag.
  - destruct e0; simpl; intros [= <- <-]; left; by split.
Qed.

(** X7.  When the read of the current link of some listed tag fails with an
    error other than path-not-found, [Lookup] (on a store whose errgroup
    admits functions) returns no tags but such an error. *)
Theorem Lookup_read_failure ts desc s allTags tag e :
  lookupConcurrencyFactor ts ≠ 0%Z →
  (All ts s).1 = Ok allTags →
  tag ∈ allTags →
  (readlink (tagLinkPath ts tag) s).1 = Err e →
  isPathNotFound e = false →
  ∃ e' failing,
    Lookup ts desc s = Returns (Err e', s)
    ∧ failing ∈ allTags
    ∧ (readlink (tagLinkPath ts failing) s).1 = Err e'
    ∧ isPathNotFound e' = false.
Proof.
  intros Hlimit HAll Hin Hread Hhard.
  unfold Lookup. rewrite All_run in *. simpl in HAll. rewrite HAll.
  unfold errgroup.goAll, errgroup.admits.
  destruct (run_lookupTag_first ts desc s allTags [] None)
    as (first' & Hrun & Hfirst).
  rewrite Hrun, (proj2 (Z.eqb_neq _ _) Hlimit). simpl.
  destruct first' as [e'|].
  - destruct Hfirst as (failing & Hf & Hr & Hn). exists e', failing.
    split; [|done].
    destruct allTags; [by apply elem_of_nil in Hin|done].
  - specialize (Hfirst tag e Hin Hread). congruence.
Qed.

(** X8.  [All] reports [ErrRepositoryUnknown] with the repository's name
    exactly when listing the tags directory fails with path-not-found;
    every other listing error is returned as it is. *)
Theorem All_cases ts s p :
  pathFor (manifestTagsPathSpec (name (ts_repository ts))) = Ok p →
  ((∃ nm, (All ts s).1 = Err (ErrRepositoryUnknown nm))
     ↔ ∃ q, (List p s).1 = Err (PathNotFoundError q))
  ∧ (∀ q, (List p s).1 = Err (PathNotFoundError q) →
       (All ts s).1 = Err (ErrRepositoryUnknown (name (ts_repository ts))))
  ∧ (∀ e, (List p s).1 = Err e → isPathNotFound e = false →
       (All ts s).1 = Err e).
Proof.
  intros [= <-]. rewrite All_run. simpl.
  set (listing := (List _ s).1). split; [split|split].
  - intros [nm H]. destruct listing as [entries|e] eqn:E; [done|].
    destruct e; try done; [by eexists|].
    (* the driver itself never reports an unknown repository *)
    exfalso. subst listing. unfold List, guarded in E.
    destruct (outage s ListOp _); [done|].
    by destruct (children (files s) _).
  - intros [q ->]. by eexists.
  - by intros q ->.
  - intros e -> Hhard. by destruct e.
Qed.

End TagStoreReaders.

(** ** A tagged name is listed and found *)

Section TagStoreListing.
Import storagedriver storage.

Implicit Types (ts : TagStore) (tag : string) (desc : Descriptor).
Implicit Types (s : StorageDriver).

(** Tag names hold no slash (a slash would make the tag a directory of its
    own in the backend). *)
Local Abbreviation slashFree tag :=
  (allChars (λ a : ascii, negb (Ascii.eqb a "/"%char)) tag = true).

Lemma string_length_app (u v : string) :
  String.length (u +:+ v) = String.length u + String.length v.
Proof.
  induction u as [|a u IH]; [reflexivity|].
  rewrite string_app_cons. simpl. by rewrite IH.
Qed.

Lemma substring_skip pre x m :
  String.substring (String.length pre) m (pre +:+ x) = String.substring 0 m x.
Proof.
  induction pre as [|a pre IH]; [reflexivity|].
  rewrite string_app_cons. simpl. exact IH.
Qed.

Lemma substring_all x : String.substring 0 (String.length x) x = x.
Proof. induction x as [|a x IH]; [reflexivity|]. simpl. by rewrite IH. Qed.

Lemma segment_app t r : slashFree t → segment (t +:+ "/" +:+ r) = t.
Proof.
  induction t as [|a t IH]; [reflexivity|].
  intros [Ha Ht]%andb_prop. apply negb_true_iff in Ha.
  rewrite string_app_cons.
  change (segment (String a (t +:+ "/" +:+ r)))
    with (if Ascii.eqb a "/"%char then "" else String a (segment (t +:+ "/" +:+ r))).
  by rewrite Ha, IH.
Qed.

Lemma childOf_below dir t r :
  slashFree t → t ≠ "" →
  childOf dir (dir +:+ "/" +:+ t +:+ "/" +:+ r) = Some (dir +:+ "/" +:+ t).
Proof.
  intros Ht Hne. unfold childOf.
  replace (dir +:+ "/" +:+ t +:+ "/" +:+ r)
    with ((dir +:+ "/") +:+ (t +:+ "/" +:+ r)) by (by rewrite string_app_assoc).
  rewrite prefix_app, substring_skip, string_length_app.
  replace (String.length (dir +:+ "/") + String.length (t +:+ "/" +:+ r)
           - String.length (dir +:+ "/"))
    with (String.length (t +:+ "/" +:+ r)) by lia.
  rewrite substring_all, (segment_app t r Ht).
  rewrite decide_False by done. by rewrite string_app_assoc.
Qed.

Lemma path_Split_file t : slashFree t → path_Split t = ("", t).
Proof.
  induction t as [|a t IH]; [reflexivity|].
  intros [Ha Ht]%andb_prop. apply negb_true_iff in Ha.
  change (path_Split (String a t))
    with (let '(dir, file) := path_Split t in
          if decide (dir = "") then
            if Ascii.eqb a "/"%char then ("/", file) else ("", String a file)
          else (String a dir, file)).
  rewrite (IH Ht), Ha. reflexivity.
Qed.

Lemma path_Split_app dir t :
  slashFree t → path_Split (dir +:+ "/" +:+ t) = (dir +:+ "/", t).
Proof.
  intros Ht. induction dir as [|a dir IH].
  - change ("" +:+ "/" +:+ t) with (String "/" t).
    change (path_Split (String "/" t))
      with (let '(dir, file) := path_Split t in
            if decide (dir = "") then ("/", file) else (String "/" dir, file)).
    by rewrite (path_Split_file t Ht).
  - rewrite !(string_app_cons a dir).
    change (path_Split (String a (dir +:+ "/" +:+ t)))
      with (let '(d, file) := path_Split (dir +:+ "/" +:+ t) in
            if decide (d = "") then
              if Ascii.eqb a "/"%char then ("/", file) else ("", String a file)
            else (String a d, file)).
    rewrite IH. cbv beta iota.
    rewrite decide_False; [done|]. by destruct dir.
Qed.

Lemma children_elem (fs : gmap string bytes) dir key c child :
  fs !! key = Some c → childOf dir key = Some child → child ∈ children fs dir.
Proof.
  intros Hkey Hchild. unfold children.
  apply elem_of_remove_dups, list_elem_of_omap. exists key. split; [|done].
  apply list_elem_of_In, in_map_iff. exists (key, c). split; [done|].
  by apply list_elem_of_In, elem_of_map_to_list.
Qed.

Lemma tagLinkPath_in_tags ts tag :
  tagLinkPath ts tag
  = (repoPath (name (ts_repository ts)) +:+ "/_manifests/tags")
      +:+ "/" +:+ tag +:+ "/" +:+ "current/link".
Proof. rewrite tagLinkPath_eq, string_app_assoc. reflexivity. Qed.

(** A store that holds the current link of [tag] lists [tag]. *)
Lemma All_lists_linked ts tag s c :
  files s !! tagLinkPath ts tag = Some c →
  slashFree tag → tag ≠ "" →
  outage s ListOp (repoPath (name (ts_repository ts)) +:+ "/_manifests/tags") = None →
  ∃ tags, All ts s = (Ok tags, s) ∧ tag ∈ tags.
Proof.
  intros Hlink Hfree Hne Hserved.
  set (dir := repoPath (name (ts_repository ts)) +:+ "/_manifests/tags") in *.
  assert (Hchild : dir +:+ "/" +:+ tag ∈ children (files s) dir).
  { eapply children_elem; [exact Hlink|].
    rewrite tagLinkPath_in_tags. by apply childOf_below. }
  assert (HList : (List dir s).1 = Ok (children (files s) dir)).
  { unfold List, guarded. rewrite Hserved.
    destruct (children (files s) dir); [by apply elem_of_nil in Hchild|done]. }
  rewrite All_run. fold dir. rewrite HList.
  eexists. split; [reflexivity|].
  unfold sort_Strings. rewrite merge_sort_Permutation.
  apply list_elem_of_In, in_map_iff. exists (dir +:+ "/" +:+ tag).
  split; [by rewrite path_Split_app|by apply list_elem_of_In].
Qed.

(** After a successful [Tag], the current link reads back the digest. *)
Lemma readlink_after_Tag ts tag desc s s' :
  Tag ts tag desc s = (Ok tt, s') →
  (∃ c : bytes, files s' !! tagLinkPath ts tag = Some c ∧ c = Digest desc)
  ∧ digest.valid (Digest desc) = true.
Proof.
  intros (ip & Hip & Hfiles & _ & _)%Tag_Ok. split.
  - exists (Digest desc). by rewrite Hfiles, lookup_insert_eq.
  - by eapply pathFor_indexEntry_valid.
Qed.

(** X9.  After a successful [Tag(tag, d)] with a non-empty tag that holds
    no slash, [All] (the backend serving the listing) succeeds and lists
    [tag]. *)
Theorem Tag_then_All ts tag desc s s' :
  Tag ts tag desc s = (Ok tt, s') →
  slashFree tag → tag ≠ "" →
  outage s' ListOp (repoPath (name (ts_repository ts)) +:+ "/_manifests/tags") = None →
  ∃ tags, All ts s' = (Ok tags, s') ∧ tag ∈ tags.
Proof.
  intros [(c & Hlink & _) _]%readlink_after_Tag Hfree Hne Hserved.
  by eapply All_lists_linked.
Qed.

(** X10.  After a successful [Tag(tag, d)] with such a tag, [Lookup(d)]
    finds [tag]: on a store whose errgroup admits functions, with the
    listing served and no read of the current link of a listed tag failing
    other than with path-not-found, it returns a list of tags that holds
    [tag]. *)
Theorem Tag_then_Lookup ts tag desc s s' :
  Tag ts tag desc s = (Ok tt, s') →
  slashFree tag → tag ≠ "" →
  lookupConcurrencyFactor ts ≠ 0%Z →
  outage s' ListOp (repoPath (name (ts_repository ts)) +:+ "/_manifests/tags") = None →
  (∀ allTags other e, (All ts s').1 = Ok allTags → other ∈ allTags →
     (readlink (tagLinkPath ts other) s').1 = Err e →
     isPathNotFound e = true) →
  ∃ tags, Lookup ts desc s' = Returns (Ok tags, s') ∧ tag ∈ tags.
Proof.
  intros HTag Hfree Hne Hlimit Hserved Hreads'.
  destruct (readlink_after_Tag _ _ _ _ _ HTag) as [(c & Hlink & ->) Hvalid].
  destruct (All_lists_linked ts tag s' _ Hlink Hfree Hne Hserved)
    as (allTags & HAll & Hin).
  assert (Hreads : ∀ other e, other ∈ allTags →
            (readlink (tagLinkPath ts other) s').1 = Err e →
            isPathNotFound e = true).
  { intros other e. apply Hreads'. by rewrite HAll. }
  assert (Hpoints : pointsAt ts desc s' tag).
  { unfold pointsAt. pose proof (Hreads tag) as Hread.
    rewrite readlink_run, GetContent_run in Hread |- *. cbn [fst] in Hread |- *.
    destruct (outage s' GetContentOp (tagLinkPath ts tag)) as [io|].
    - by specialize (Hread _ Hin eq_refl).
    - rewrite Hlink.
      by rewrite (trimNewline_valid _ Hvalid), (Parse_valid _ Hvalid). }
  exists (filter (pointsAt ts desc s') allTags). split.
  - unfold Lookup. rewrite HAll. unfold errgroup.goAll, errgroup.admits.
    rewrite (run_lookupTag ts desc s' allTags [] None) by exact Hreads.
    simpl. rewrite (proj2 (Z.eqb_neq _ _) Hlimit).
    destruct allTags; [by apply elem_of_nil in Hin|done].
  - by apply list_elem_of_filter.
Qed.

End TagStoreListing.

(** * Further properties of the proxy manifest store *)

Section ProxyReads.
Import proxy.

Context {SignedManifest : Type}.
Context (Payload : SignedManifest → result bytes).
Context (FromBytes : bytes → result digest.Digest).
Context {L R : Type}.

Implicit Types (pms : @proxyManifestStore SignedManifest L R).
Implicit Types (w : @World SignedManifest L R).

(** X11.  [Exists] and [ExistsByTag] are local-first: a local "yes" or a
    local error is returned without asking the remote registry; only
    after a local "no" is the remote asked, and its answer or error is
    what is returned. *)
Theorem Exists_local_first pms w :
  (∀ dgst,
     (∀ l', svc_Exists (localManifests pms) dgst (local w) = (Ok true, l') →
        Exists pms dgst w
        = (Ok true, {| local := l'; remote := remote w; scheduler := scheduler w;
                       history := history w ++ [Local (CallExists dgst)] |}))
     ∧ (∀ e l', svc_Exists (localManifests pms) dgst (local w) = (Err e, l') →
          Exists pms dgst w
          = (Err e, {| local := l'; remote := remote w; scheduler := scheduler w;
                       history := history w ++ [Local (CallExists dgst)] |}))
     ∧ (∀ l' answer r',
          svc_Exists (localManifests pms) dgst (local w) = (Ok false, l') →
          svc_Exists (remoteManifests pms) dgst (remote w) = (answer, r') →
          Exists pms dgst w
          = (answer, {| local := l'; remote := r'; scheduler := scheduler w;
                        history := history w ++ [Local (CallExists dgst);
                                                 Remote (CallExists dgst)] |})))
  ∧ (∀ tag,
       (∀ l', svc_ExistsByTag (localManifests pms) tag (local w) = (Ok true, l') →
          ExistsByTag pms tag w
          = (Ok true, {| local := l'; remote := remote w; scheduler := scheduler w;
                         history := history w ++ [Local (CallExistsByTag tag)] |}))
       ∧ (∀ e l', svc_ExistsByTag (localManifests pms) tag (local w) = (Err e, l') →
            ExistsByTag pms tag w
            = (Err e, {| local := l'; remote := remote w; scheduler := scheduler w;
                         history := history w ++ [Local (CallExistsByTag tag)] |}))
       ∧ (∀ l' answer r',
            svc_ExistsByTag (localManifests pms) tag (local w) = (Ok false, l') →
            svc_ExistsByTag (remoteManifests pms) tag (remote w) = (answer, r') →
            ExistsByTag pms tag w
            = (answer, {| local := l'; remote := r'; scheduler := scheduler w;
                          history := history w ++ [Local (CallExistsByTag tag);
                                                   Remote (CallExistsByTag tag)] |}))).
Proof.
  split; intros x; (split; [|split]).
  - intros l' H. unfold Exists. rewrite bind_run. unfold onLocal. by rewrite H.
  - intros e l' H. unfold Exists. rewrite bind_run. unfold onLocal. by rewrite H.
  - intros l' answer r' Hl Hr. unfold Exists. rewrite bind_run.
    unfold onLocal, onRemote. rewrite Hl. simpl. rewrite Hr.
    by rewrite <- app_assoc.
  - intros l' H. unfold ExistsByTag. rewrite bind_run. unfold onLocal. by rewrite H.
  - intros e l' H. unfold ExistsByTag. rewrite bind_run. unfold onLocal. by rewrite H.
  - intros l' answer r' Hl Hr. unfold ExistsByTag. rewrite bind_run.
    unfold onLocal, onRemote. rewrite Hl. simpl. rewrite Hr.
    by rewrite <- app_assoc.
Qed.

(** X12.  When the local lookup and the remote fetch both fail, [Get]
    returns the remote's error and nothing is put or scheduled; when the
    remote manifest cannot be put into the local registry, [Get] returns
    the error of [Put] instead of the manifest and nothing is scheduled. *)
Theorem Get_failures pms dgst w :
  (∀ e l1 e' r',
     svc_Get (localManifests pms) dgst (local w) = (Err e, l1) →
     svc_Get (remoteManifests pms) dgst (remote w) = (Err e', r') →
     Get pms dgst w
     = (Err e', {| local := l1; remote := r'; scheduler := scheduler w;
                   history := history w ++ [Local (CallGet dgst);
                                            Remote (CallGet dgst)] |}))
  ∧ (∀ e l1 sm r' e' l2,
       svc_Get (localManifests pms) dgst (local w) = (Err e, l1) →
       svc_Get (remoteManifests pms) dgst (remote w) = (Ok sm, r') →
       svc_Put (localManifests pms) sm l1 = (Err e', l2) →
       Get pms dgst w
       = (Err e', {| local := l2; remote := r'; scheduler := scheduler w;
                     history := history w ++ [Local (CallGet dgst);
                                              Remote (CallGet dgst);
                                              Local (CallPut sm)] |})).
Proof.
  split.
  - intros e l1 e' r' Hl Hr. unfold Get. rewrite bind_run.
    unfold try, onLocal at 1. rewrite Hl. rewrite bind_run.
    unfold onRemote. simpl. rewrite Hr. by rewrite <- app_assoc.
  - intros e l1 sm r' e' l2 Hl Hr Hp. unfold Get. rewrite bind_run.
    unfold try, onLocal at 1. rewrite Hl. rewrite bind_run.
    unfold onRemote at 1. simpl. rewrite Hr. rewrite bind_run.
    unfold onLocal. simpl. rewrite Hp. by repeat rewrite <- app_assoc.
Qed.

(** X13.  [GetByTag] returns no manifest when a step after the remote
    fetch fails: an error of [Payload], of [digest.FromBytes], of the local
    [Exists] or of the local [Put] is returned as it is, and in none of
    these cases is anything handed to the scheduler. *)
Theorem GetByTag_failures pms tag w sm r' :
  svc_GetByTag (remoteManifests pms) tag (remote w) = (Ok sm, r') →
  (∀ e, Payload sm = Err e →
     GetByTag Payload FromBytes pms tag w
     = (Err e, {| local := local w; remote := r'; scheduler := scheduler w;
                  history := history w ++ [Remote (CallGetByTag tag)] |}))
  ∧ (∀ payload e, Payload sm = Ok payload → FromBytes payload = Err e →
       GetByTag Payload FromBytes pms tag w
       = (Err e, {| local := local w; remote := r'; scheduler := scheduler w;
                    history := history w ++ [Remote (CallGetByTag tag)] |}))
  ∧ (∀ payload dgst e l',
       Payload sm = Ok payload → FromBytes payload = Ok dgst →
       svc_Exists (localManifests pms) dgst (local w) = (Err e, l') →
       GetByTag Payload FromBytes pms tag w
       = (Err e, {| local := l'; remote := r'; scheduler := scheduler w;
                    history := history w ++ [Remote (CallGetByTag tag);
                                             Local (CallExists dgst)] |}))
  ∧ (∀ payload dgst l' e l'',
       Payload sm = Ok payload → FromBytes payload = Ok dgst →
       svc_Exists (localManifests pms) dgst (local w) = (Ok false, l') →
       svc_Put (localManifests pms) sm l' = (Err e, l'') →
       GetByTag Payload FromBytes pms tag w
       = (Err e, {| local := l''; remote := r'; scheduler := scheduler w;
                    history := history w ++ [Remote (CallGetByTag tag);
                                             Local (CallExists dgst);
                                             Local (CallPut sm)] |})).
Proof.
  intros Hremote.
  assert (Hstart : ∀ k : SignedManifest → M (World L R) SignedManifest,
            (onRemote (CallGetByTag tag) (svc_GetByTag (remoteManifests pms) tag)
               ≫= k) w
            = k sm {| local := local w; remote := r'; scheduler := scheduler w;
                      history := history w ++ [Remote (CallGetByTag tag)] |}).
  { intros k. rewrite bind_run. unfold onRemote. by rewrite Hremote. }
  unfold GetByTag. rewrite Hstart. clear Hstart.
  split; [|split; [|split]].
  - intros e Hp. rewrite bind_run. unfold liftR. by rewrite Hp.
  - intros payload e Hp Hd. rewrite bind_run. unfold liftR at 1. rewrite Hp.
    rewrite bind_run. unfold liftR. by rewrite Hd.
  - intros payload dgst e l' Hp Hd He.
    rewrite bind_run. unfold liftR at 1. rewrite Hp.
    rewrite bind_run. unfold liftR at 1. rewrite Hd.
    rewrite bind_run. unfold onLocal. simpl. rewrite He.
    by rewrite <- app_assoc.
  - intros payload dgst l' e l'' Hp Hd He Hput.
    rewrite bind_run. unfold liftR at 1. rewrite Hp.
    rewrite bind_run. unfold liftR at 1. rewrite Hd.
    rewrite bind_run. unfold onLocal at 1. simpl. rewrite He.
    rewrite bind_run. unfold onLocal. simpl. rewrite Hput.
    by repeat rewrite <- app_assoc.
Qed.

End ProxyReads.

(** ** What the proxy never does *)

Section ProxyDiscipline.
Import proxy.

Context {SignedManifest : Type}.
Context (Payload : SignedManifest → result bytes).
Context (FromBytes : bytes → result digest.Digest).
Context {L R : Type}.

Implicit Types (pms : @proxyManifestStore SignedManifest L R).
Implicit Types (w : @World SignedManifest L R).

Ltac remote_kept HE HG HET HGT :=
  repeat match goal with
  | H : proxy.svc_Exists _ ?a ?r = (_, ?r') |- _ =>
      let Hp := fresh in
      pose proof (HE a r) as Hp; rewrite H in Hp; simpl in Hp; subst r'; clear H
  | H : proxy.svc_Get _ ?a ?r = (_, ?r') |- _ =>
      let Hp := fresh in
      pose proof (HG a r) as Hp; rewrite H in Hp; simpl in Hp; subst r'; clear H
  | H : proxy.svc_ExistsByTag _ ?a ?r = (_, ?r') |- _ =>
      let Hp := fresh in
      pose proof (HET a r) as Hp; rewrite H in Hp; simpl in Hp; subst r'; clear H
  | H : proxy.svc_GetByTag _ ?a ?r = (_, ?r') |- _ =>
      let Hp := fresh in
      pose proof (HGT a r) as Hp; rewrite H in Hp; simpl in Hp; subst r'; clear H
  end.

(** X14.  The proxy never changes the remote registry: when the four
    read operations of the remote registry ([Exists], [Get],
    [ExistsByTag], [GetByTag]) leave its state as it is, every operation
    of the proxy manifest store leaves the remote state as it is,
    whatever [Put], [Delete] and [Tags] of the remote registry would do
    to it. *)
Theorem proxy_never_writes_remote pms :
  (∀ dgst r, (svc_Exists (remoteManifests pms) dgst r).2 = r) →
  (∀ dgst r, (svc_Get (remoteManifests pms) dgst r).2 = r) →
  (∀ tag r, (svc_ExistsByTag (remoteManifests pms) tag r).2 = r) →
  (∀ tag r, (svc_GetByTag (remoteManifests pms) tag r).2 = r) →
  ∀ w,
    (∀ dgst, remote (Exists pms dgst w).2 = remote w)
    ∧ (∀ dgst, remote (Get pms dgst w).2 = remote w)
    ∧ (∀ manifest, remote (Put pms manifest w).2 = remote w)
    ∧ (∀ dgst, remote (Delete pms dgst w).2 = remote w)
    ∧ remote (Tags pms w).2 = remote w
    ∧ (∀ tag, remote (ExistsByTag pms tag w).2 = remote w)
    ∧ (∀ tag, remote (GetByTag Payload FromBytes pms tag w).2 = remote w).
Proof.
  intros HE HG HET HGT w.
  refine (conj _ (conj _ (conj _ (conj _ (conj _ (conj _ _)))))).
  - intros dgst. unfold Exists, mbind, M_bind, onLocal, onRemote, mret, M_ret.
    repeat (case_match; simplify_eq; simpl in * ); remote_kept HE HG HET HGT;
      reflexivity.
  - intros dgst.
    unfold Get, mbind, M_bind, try, onLocal, onRemote, scheduler_AddManifest,
      mret, M_ret.
    repeat (case_match; simplify_eq; simpl in * ); remote_kept HE HG HET HGT;
      reflexivity.
  - reflexivity.
  - reflexivity.
  - unfold Tags, onLocal. by case_match.
  - intros tag.
    unfold ExistsByTag, mbind, M_bind, onLocal, onRemote, mret, M_ret.
    repeat (case_match; simplify_eq; simpl in * ); remote_kept HE HG HET HGT;
      reflexivity.
  - intros tag.
    unfold GetByTag, mbind, M_bind, liftR, onLocal, onRemote,
      scheduler_AddManifest, mret, M_ret.
    repeat (case_match; simplify_eq; simpl in * ); remote_kept HE HG HET HGT;
      reflexivity.
Qed.

(** X15.  The scheduler is handed an entry only by a [Get] or [GetByTag]
    that returns a manifest, and then at most the one entry of the
    store's repository with [repositoryTTL]; a failing call, and every
    other operation, leaves the scheduler as it was. *)
Theorem proxy_scheduler_discipline pms w :
  let grown w' :=
    scheduler w' = scheduler w ++ [(repositoryName pms, repositoryTTL)] in
  (∀ dgst r w', Get pms dgst w = (r, w') →
     match r with
     | Ok _ => scheduler w' = scheduler w ∨ grown w'
     | Err _ => scheduler w' = scheduler w
     end)
  ∧ (∀ tag r w', GetByTag Payload FromBytes pms tag w = (r, w') →
       match r with
       | Ok _ => scheduler w' = scheduler w ∨ grown w'
       | Err _ => scheduler w' = scheduler w
       end)
  ∧ (∀ dgst r w', Exists pms dgst w = (r, w') → scheduler w' = scheduler w)
  ∧ (∀ tag r w', ExistsByTag pms tag w = (r, w') → scheduler w' = scheduler w)
  ∧ (∀ r w', Tags pms w = (r, w') → scheduler w' = scheduler w)
  ∧ (∀ manifest r w', Put pms manifest w = (r, w') → scheduler w' = scheduler w)
  ∧ (∀ dgst r w', Delete pms dgst w = (r, w') → scheduler w' = scheduler w).
Proof.
  simpl. repeat split.
  - intros dgst r w'.
    unfold Get, mbind, M_bind, try, onLocal, onRemote, scheduler_AddManifest,
      mret, M_ret.
    intros H. repeat (case_match; simplify_eq; simpl in * ); auto.
  - intros tag r w'.
    unfold GetByTag, mbind, M_bind, liftR, onLocal, onRemote,
      scheduler_AddManifest, mret, M_ret.
    intros H. repeat (case_match; simplify_eq; simpl in * ); auto.
  - intros dgst r w'. unfold Exists, mbind, M_bind, onLocal, onRemote, mret, M_ret.
    intros H. by repeat (case_match; simplify_eq; simpl in * ).
  - intros tag r w'.
    unfold ExistsByTag, mbind, M_bind, onLocal, onRemote, mret, M_ret.
    intros H. by repeat (case_match; simplify_eq; simpl in * ).
  - intros r w'. unfold Tags, onLocal.
    intros H. by repeat (case_match; simplify_eq; simpl in * ).
  - by intros manifest r w' [= <- <-].
  - by intros dgst r w' [= <- <-].
Qed.

End ProxyDiscipline.

(** * Properties of the registry and its options *)

Section RegistryOptions.
Import namespace.

Context {Provider Cache : Type}.
Context (RepositoryScoped : Provider → string → result Cache).

Implicit Types (reg : @registry Provider).
Implicit Types (options : list (@RegistryOption Provider)).

(** What every provided option does: it succeeds, and it keeps the blob
    store's delete flag equal to the registry's, the two statters equal,
    the global statter in place and the cache (if any) directly over it. *)
Definition wellFormed reg : Prop :=
  bs_deleteEnabled (reg_blobStore reg) = deleteEnabled reg
  ∧ bs_statter (reg_blobStore reg) = srv_statter (reg_blobServer reg)
  ∧ reg_statter reg = blobStatter
  ∧ bs_statter (reg_blobStore reg)
    = match blobDescriptorCacheProvider reg with
      | Some p => cachedBlobStatter p blobStatter
      | None => blobStatter
      end.

Lemma provided_wellFormed option reg :
  provided option → wellFormed reg →
  ∃ reg', option reg = Ok reg' ∧ wellFormed reg'.
Proof.
  intros Hp (Hd & Hs & Hg & Hc).
  destruct Hp as [->|[->|[->|[->|[[p|] ->]]]]];
    eexists; (split; [reflexivity|]); unfold wellFormed; simpl;
    rewrite ?Hg; auto.
Qed.

Lemma applyOptions_wellFormed options : ∀ reg,
  Forall provided options → wellFormed reg →
  ∃ reg', applyOptions options reg = Ok reg' ∧ wellFormed reg'.
Proof.
  induction options as [|option rest IH]; intros reg Hall Hwf; simpl.
  - by exists reg.
  - apply Forall_cons in Hall as [Hp Hrest].
    destruct (provided_wellFormed option reg Hp Hwf) as (reg1 & -> & Hwf1).
    by apply IH.
Qed.

Lemma applyOptions_app options : ∀ more reg0 reg1,
  applyOptions options reg0 = Ok reg1 →
  applyOptions (options ++ more) reg0 = applyOptions more reg1.
Proof.
  induction options as [|option rest IH]; intros more reg0 reg1; simpl.
  - by intros [= ->].
  - destruct (option reg0) as [r|e]; [apply IH|done].
Qed.

Lemma applyOptions_no_cache options : ∀ reg0 reg,
  Forall provided options →
  (∀ p, BlobDescriptorCacheProvider (Some p) ∉ options) →
  applyOptions options reg0 = Ok reg →
  blobDescriptorCacheProvider reg = blobDescriptorCacheProvider reg0.
Proof.
  induction options as [|option rest IH]; intros reg0 reg Hall Hno; simpl.
  - by intros [= <-].
  - apply Forall_cons in Hall as [Hp Hrest].
    assert (Hno' : ∀ p, BlobDescriptorCacheProvider (Some p) ∉ rest).
    { intros p Hin. apply (Hno p). by right. }
    destruct Hp as [->|[->|[->|[->|[[p|] ->]]]]]; simpl;
      try (intros H; by rewrite (IH _ _ Hrest Hno' H)).
    exfalso. apply (Hno p). by left.
Qed.

(** X16.  With any list of the provided options [NewRegistry] succeeds,
    and in the registry it returns the blob store's delete flag equals the
    registry's, the blob store and the blob server use the same statter,
    and that statter is the global one or one cache layer directly over
    it; a later cache provider replaces an earlier one: the registry's
    provider is the one of the last option that gives a provider. *)
Theorem NewRegistry_wellFormed options :
  Forall provided options →
  ∃ reg, NewRegistry options = Ok reg
    ∧ bs_deleteEnabled (reg_blobStore reg) = deleteEnabled reg
    ∧ bs_statter (reg_blobStore reg) = srv_statter (reg_blobServer reg)
    ∧ reg_statter reg = blobStatter
    ∧ bs_statter (reg_blobStore reg)
      = match blobDescriptorCacheProvider reg with
        | Some p => cachedBlobStatter p blobStatter
        | None => blobStatter
        end
    ∧ (∀ before p after,
         options = before ++ BlobDescriptorCacheProvider (Some p) :: after →
         (∀ q, BlobDescriptorCacheProvider (Some q) ∉ after) →
         blobDescriptorCacheProvider reg = Some p).
Proof.
  intros Hall. unfold NewRegistry.
  set (base := {| reg_blobStore := _ |}).
  assert (Hbase : wellFormed base) by done.
  destruct (applyOptions_wellFormed options base Hall Hbase)
    as (reg & Hrun & Hd & Hs & Hg & Hc).
  exists reg. repeat (split; [done|]).
  intros before p after -> Hlast.
  apply Forall_app in Hall as [Hbefore Hrest].
  apply Forall_cons in Hrest as [_ Hafter].
  destruct (applyOptions_wellFormed before base Hbefore Hbase)
    as (reg1 & Hrun1 & _).
  rewrite (applyOptions_app before _ _ _ Hrun1) in Hrun. simpl in Hrun.
  by rewrite (applyOptions_no_cache after _ reg Hafter Hlast Hrun).
Qed.

(** A flag that one option sets and the other provided options keep. *)
Lemma applyOptions_flag (flag : registry → bool) (setter : @RegistryOption Provider) :
  (∀ reg, ∃ reg', setter reg = Ok reg' ∧ flag reg' = true) →
  (∀ option reg, provided option →
     ∃ reg', option reg = Ok reg' ∧ (flag reg' = flag reg ∨ option = setter)) →
  ∀ options reg0 reg,
    Forall provided options →
    applyOptions options reg0 = Ok reg →
    (flag reg = true ↔ flag reg0 = true ∨ setter ∈ options).
Proof.
  intros Hset Hkeep. induction options as [|option rest IH];
    intros reg0 reg Hall Happly; simpl in Happly.
  - injection Happly as <-. split; [by left|].
    intros [H|H]; [done|by apply elem_of_nil in H].
  - apply Forall_cons in Hall as [Hp Hrest].
    destruct (Hkeep option reg0 Hp) as (reg1 & Hrun & Hflag).
    rewrite Hrun in Happly. rewrite (IH reg1 reg Hrest Happly).
    rewrite elem_of_cons. split.
    + intros [H|H]; [|by right; right].
      destruct Hflag as [Hflag|Hflag]; [left; congruence|right; by left].
    + intros [H|[H|H]]; [|left|by right].
      * left. destruct Hflag as [Hflag|Hflag]; [congruence|].
        subst option. destruct (Hset reg0) as (reg2 & H2 & Hf2). congruence.
      * subst option. destruct (Hset reg0) as (reg2 & H2 & Hf2). congruence.
Qed.

Ltac provided_cases Hp :=
  destruct Hp as [->|[->|[->|[->|[[p|] ->]]]]];
  eexists; (split; [reflexivity|]); simpl; auto.

Ltac registry_flag Hflag flag setter :=
  rewrite (Hflag flag setter);
    [ simpl; split; [by intros [?|?]|by right]
    | intros r; by eexists
    | intros option r Hp; provided_cases Hp ].


(** X17.  For a list of the provided options, each flag of the registry
    [NewRegistry] returns is set exactly when its option is in the list:
    deletion with [EnableDelete], redirects with [EnableRedirect], removal
    of parents with [RemoveParentsOnDelete]; digest resumption is on unless
    [DisableDigestResumption] is in the list. *)
Theorem NewRegistry_flags options reg :
  Forall provided options →
  NewRegistry options = Ok reg →
  (deleteEnabled reg = true ↔ EnableDelete ∈ options)
  ∧ (redirect (reg_blobServer reg) = true ↔ EnableRedirect ∈ options)
  ∧ (bs_removeParentsOnDelete (reg_blobStore reg) = true
       ↔ RemoveParentsOnDelete ∈ options)
  ∧ (resumableDigestEnabled reg = false ↔ DisableDigestResumption ∈ options).
Proof.
  intros Hall HNew. unfold NewRegistry in HNew.
  pose proof (λ flag setter H1 H2,
    applyOptions_flag flag setter H1 H2 options _ reg Hall HNew) as Hflag.
  split; [|split; [|split]].
  - registry_flag Hflag (@deleteEnabled Provider) (@EnableDelete Provider).
  - registry_flag Hflag (λ r : @registry Provider, redirect (reg_blobServer r))
                        (@EnableRedirect Provider).
  - registry_flag Hflag (λ r : @registry Provider,
                           bs_removeParentsOnDelete (reg_blobStore r))
                        (@RemoveParentsOnDelete Provider).
  - rewrite <- negb_true_iff.
    registry_flag Hflag (λ r : @registry Provider, negb (resumableDigestEnabled r))
                        (@DisableDigestResumption Provider).
Qed.

(** X18.  [NewRegistry] stops at the first option that fails: it returns
    that option's error, and the options after it are not applied. *)
Theorem NewRegistry_first_error options option more reg e :
  NewRegistry options = Ok reg →
  option reg = Err e →
  NewRegistry (options ++ option :: more) = Err e.
Proof.
  unfold NewRegistry. intros Hpre Hfail.
  rewrite (applyOptions_app options _ _ _ Hpre). simpl. by rewrite Hfail.
Qed.



(** X20.  The layer store built by [Blobs] for a repository without a
    descriptor cache resolves blobs through the layer link only: when the
    layer link of a digest is not found, [Stat] answers [ErrBlobUnknown],
    whatever else the backend holds for the digest (a manifest revision
    link, the blob itself). *)
Theorem Blobs_layer_link_only (repo : @repository Provider Cache) :
  descriptorCache repo = None →
  ∃ st, ls_blobAccessController (Blobs repo) = linkedStatter st
    ∧ ∀ s dgst layerLink missing,
        registry.blobLinkPath (repo_name repo) dgst = Ok layerLink →
        storage.readlink layerLink s = (Err (PathNotFoundError missing), s) →
        registry.Stat st dgst s = (Err ErrBlobUnknown, s).
Proof.
  intros Hcache. unfold Blobs. rewrite Hcache. eexists. split; [reflexivity|].
  intros s dgst layerLink missing Hpath Hread.
  unfold registry.Stat. cbn [registry.st_repository registry.st_linkPathFns
                             registry.resolve view registry.name].
  unfold registry.resolveWithLinkFunc, try, liftR, fail.
  cbn [view registry.name].
  repeat (rewrite bind_run; cbv iota beta).
  rewrite Hpath. repeat (rewrite bind_run; cbv iota beta).
  by rewrite Hread.
Qed.

(** X21.  On a registry built from provided options none of which
    configures a descriptor cache, [Repository] never fails, and the
    repository it returns has no descriptor cache. *)
Theorem Repository_without_cache options reg nm :
  Forall provided options →
  (∀ p, BlobDescriptorCacheProvider (Some p) ∉ options) →
  NewRegistry options = Ok reg →
  Repository RepositoryScoped reg nm
  = Ok {| repo_registry := reg; repo_name := nm; descriptorCache := None |}.
Proof.
  intros Hall Hno HNew. unfold Repository.
  by rewrite (applyOptions_no_cache options _ reg Hall Hno HNew).
Qed.

End RegistryOptions.

(** * [Untag] and the other tags; when [Lookup] does not return *)

Section TagStoreUntag.
Import storagedriver storage.

Implicit Types (ts : TagStore) (tag other : string) (desc : Descriptor).
Implicit Types (s : StorageDriver).

Local Abbreviation slashFree tag :=
  (allChars (λ a : ascii, negb (Ascii.eqb a "/"%char)) tag = true).

Lemma prefix_cons a u b v :
  String.prefix (String a u) (String b v)
  = if ascii_dec a b then String.prefix u v else false.
Proof. reflexivity. Qed.

Lemma prefix_app_cancel (r u v : string) :
  String.prefix (r +:+ u) (r +:+ v) = String.prefix u v.
Proof.
  induction r as [|a r IH]; [reflexivity|].
  rewrite !string_app_cons, prefix_cons. by destruct (ascii_dec a a).
Qed.

(** Two slash-free names, one of which (followed by a slash) starts the
    other (followed by a slash), are the same name. *)
Lemma prefix_slashFree (t o r : string) :
  slashFree t → slashFree o →
  String.prefix (t +:+ "/") (o +:+ "/" +:+ r) = true → t = o.
Proof.
  revert o. induction t as [|a t IH]; intros [|b o] Ht Ho.
  - done.
  - simpl in Ho. apply andb_prop in Ho as [Hb _]. apply negb_true_iff in Hb.
    change ("" +:+ "/") with (String "/" ""). rewrite string_app_cons, prefix_cons.
    destruct (ascii_dec "/" b) as [<-|]; [|done]. done.
  - simpl in Ht. apply andb_prop in Ht as [Ha _]. apply negb_true_iff in Ha.
    change ("" +:+ "/" +:+ r) with (String "/" r). rewrite string_app_cons, prefix_cons.
    destruct (ascii_dec a "/") as [->|]; [|done]. done.
  - simpl in Ht, Ho. apply andb_prop in Ht as [_ Ht]. apply andb_prop in Ho as [_ Ho].
    rewrite !string_app_cons, prefix_cons.
    destruct (ascii_dec a b) as [->|]; [|done].
    intros H. f_equal. by apply (IH o).
Qed.

Lemma slashFree_no_slash (t u v : string) : slashFree t → t ≠ u +:+ "/" +:+ v.
Proof.
  revert t. induction u as [|a u IH]; intros [|b t] Ht; try done.
  - change ("" +:+ "/" +:+ v) with (String "/" v). intros [= -> _].
    simpl in Ht. done.
  - rewrite string_app_cons. intros [= -> H].
    simpl in Ht. apply andb_prop in Ht as [_ Ht]. by apply (IH t).
Qed.

Lemma other_not_below ts tag other :
  slashFree tag → slashFree other → other ≠ tag →
  below (repoPath (name (ts_repository ts)) +:+ "/_manifests/tags/" +:+ tag)
        (tagLinkPath ts other) = false.
Proof.
  intros Ht Ho Hne. unfold below. apply orb_false_intro.
  - apply bool_decide_eq_false. rewrite tagLinkPath_eq. intros H.
    apply (inj (String.app _)) in H. apply (inj (String.app _)) in H.
    symmetry in H. revert H.
    change (other +:+ "/current/link") with (other +:+ "/" +:+ "current/link").
    by apply slashFree_no_slash.
  - rewrite tagLinkPath_eq.
    replace ((repoPath (name (ts_repository ts)) +:+ "/_manifests/tags/" +:+ tag)
               +:+ "/")
      with (repoPath (name (ts_repository ts)) +:+ "/_manifests/tags/"
              +:+ (tag +:+ "/")) by (by rewrite !string_app_assoc).
    rewrite !prefix_app_cancel.
    destruct (String.prefix (tag +:+ "/") (other +:+ "/current/link")) eqn:E;
      [|done].
    exfalso. apply Hne. symmetry.
    by apply (prefix_slashFree tag other "current/link").
Qed.

(** X22.  A successful [Untag] of a tag leaves [Get] of every other tag
    as it was (tag names holding no slash). *)
Theorem Untag_keeps_other_tags ts tag other s s' :
  Untag ts tag s = (Ok tt, s') →
  slashFree tag → slashFree other → other ≠ tag →
  (Get ts other s').1 = (Get ts other s).1.
Proof.
  unfold Untag. rewrite bind_run. unfold liftR. simpl pathFor. cbv iota beta.
  intros (Hfiles & Hout)%Delete_Ok Ht Ho Hne.
  rewrite !Get_run, !readlink_run, !GetContent_run. simpl.
  rewrite Hout, Hfiles.
  replace (filter _ (files s) !! tagLinkPath ts other)
    with (files s !! tagLinkPath ts other); [done|].
  destruct (files s !! tagLinkPath ts other) as [c|] eqn:E.
  - symmetry. apply map_lookup_filter_Some. split; [done|]. simpl.
    by apply other_not_below.
  - symmetry. apply map_lookup_filter_None. by left.
Qed.

(** X23.  [Lookup] fails to return in one situation only: the store's
    lookup concurrency factor is zero and the repository lists at least
    one tag. *)
Theorem Lookup_blocks_iff ts desc s :
  Lookup ts desc s = Blocks
  ↔ lookupConcurrencyFactor ts = 0%Z
    ∧ ∃ tag rest, (All ts s).1 = Ok (tag :: rest).
Proof.
  unfold Lookup. destruct (All ts s) as [[allTags|e] s1]; simpl.
  - unfold errgroup.goAll, errgroup.admits.
    destruct allTags as [|tag rest]; simpl.
    + split; [done|]. by intros (_ & tag & rest & ?).
    + destruct (Z.eqb_spec (lookupConcurrencyFactor ts) 0) as [->|Hne]; simpl.
      * split; [|done]. intros _. split; [done|]. by exists tag, rest.
      * split; [|by intros [? _]].
        intros H. by repeat (case_match; simplify_eq).
  - split; [|by intros (_ & tag & rest & ?)].
    destruct e; done.
Qed.

End TagStoreUntag.

(** * The further properties at work on the scenarios *)

Section MoreScenarios.
Import storagedriver scenario scenario_more.

Lemma Untag_then_Get_witness :
  storage.Untag ts "v1" s4 = (Ok tt, untagged)
  ∧ storage.Get ts "v1" untagged = (Err (ErrTagUnknown "v1"), untagged).
Proof.
  split; [reflexivity|].
  apply (Untag_then_Get ts "v1" s4 untagged); reflexivity.
Defined.

Lemma Tag_keeps_other_tags_witness :
  storage.Tag ts "alpha" (DescriptorOf d1) s1 = (Ok tt, s2)
  ∧ (storage.Get ts "v1" s2).1 = (storage.Get ts "v1" s1).1.
Proof.
  split; [reflexivity|].
  apply (Tag_keeps_other_tags ts "alpha" (DescriptorOf d1) "v1" s1 (Ok tt) s2);
    [reflexivity|discriminate].
Defined.

Lemma Tag_again_witness :
  storage.Tag ts "v1" (DescriptorOf d1) emptyDriver = (Ok tt, s1)
  ∧ storage.Tag ts "v1" (DescriptorOf d1) s1 = (Ok tt, retagged)
  ∧ files retagged = files s1.
Proof.
  split; [reflexivity|]. split; [reflexivity|].
  apply (Tag_again ts "v1" (DescriptorOf d1) emptyDriver s1 s1 retagged);
    reflexivity.
Defined.

Lemma Tag_current_link_refused_witness :
  storage.Tag ts "v1" (DescriptorOf d1) (refusingWrites currentV1)
    = (Err (DriverError TransientIO currentV1), indexed)
  ∧ files indexed !! storage.tagLinkPath ts "v1" = None
  ∧ files indexed !! indexEntryV1 = Some d1.
Proof.
  destruct (Tag_current_link_refused ts "v1" (DescriptorOf d1)
              (refusingWrites currentV1) indexed
              (DriverError TransientIO currentV1) indexed eq_refl eq_refl)
    as (HTag & Hcurrent & ip & Hip & Hindex).
  split; [exact HTag|]. split; [exact Hcurrent|].
  injection Hip as <-. exact Hindex.
Defined.

Lemma readers_leave_store_witness :
  (storage.Get ts "v1" s4).2 = s4 ∧ (storage.All ts s4).2 = s4.
Proof.
  destruct (readers_leave_store ts s4) as (HGet & HAll & _).
  split; [apply HGet|exact HAll].
Defined.

Lemma Lookup_error_origin_witness :
  storage.Lookup ts (DescriptorOf d2) unreadable
    = Returns (Err (DriverError PermanentIO currentAlpha), unreadable)
  ∧ ∃ allTags tag, (storage.All ts unreadable).1 = Ok allTags ∧ tag ∈ allTags
      ∧ (storage.readlink (storage.tagLinkPath ts tag) unreadable).1
        = Err (DriverError PermanentIO currentAlpha).
Proof.
  split; [reflexivity|].
  destruct (Lookup_error_origin ts (DescriptorOf d2) unreadable
              (DriverError PermanentIO currentAlpha) unreadable eq_refl)
    as [[HAll _]|(allTags & tag & HAll & Hin & Hread & _)].
  - vm_compute in HAll. discriminate HAll.
  - exists allTags, tag. split; [exact HAll|]. split; [exact Hin|exact Hread].
Defined.

Lemma Lookup_read_failure_witness :
  ∃ e' failing,
    storage.Lookup ts (DescriptorOf d2) unreadable = Returns (Err e', unreadable)
    ∧ failing ∈ ["alpha"; "beta"; "ghost"; "v1"]
    ∧ (storage.readlink (storage.tagLinkPath ts failing) unreadable).1 = Err e'
    ∧ isPathNotFound e' = false.
Proof.
  apply (Lookup_read_failure ts (DescriptorOf d2) unreadable
           ["alpha"; "beta"; "ghost"; "v1"] "alpha"
           (DriverError PermanentIO currentAlpha)).
  - discriminate.
  - reflexivity.
  - by left.
  - reflexivity.
  - reflexivity.
Defined.

Lemma All_cases_witness :
  (storage.All ts emptyDriver).1 = Err (ErrRepositoryUnknown "library/app").
Proof.
  destruct (All_cases ts emptyDriver tagsPath eq_refl) as (_ & Hunknown & _).
  apply (Hunknown tagsPath). reflexivity.
Defined.

Lemma Tag_then_All_witness :
  ∃ tags, storage.All ts s1 = (Ok tags, s1) ∧ "v1" ∈ tags.
Proof.
  apply (Tag_then_All ts "v1" (DescriptorOf d1) emptyDriver s1);
    [reflexivity|reflexivity|discriminate|reflexivity].
Defined.

Lemma Tag_then_Lookup_witness :
  ∃ tags, storage.Lookup ts (DescriptorOf d1) s1 = Returns (Ok tags, s1)
    ∧ "v1" ∈ tags.
Proof.
  apply (Tag_then_Lookup ts "v1" (DescriptorOf d1) emptyDriver s1);
    [reflexivity|reflexivity|discriminate|discriminate|reflexivity|].
  intros allTags other e HAll Hin.
  vm_compute in HAll. injection HAll as <-.
  apply list_elem_of_singleton in Hin as ->.
  vm_compute. discriminate.
Defined.

Lemma Exists_local_first_witness :
  (proxy.Exists pms "toy:m1" warm).1 = Ok true
  ∧ proxy.history (proxy.Exists pms "toy:m1" warm).2
    = [proxy.Local (proxy.CallExists "toy:m1")]
  ∧ (proxy.ExistsByTag pms "latest" cold).1 = Ok true.
Proof.
  destruct (Exists_local_first pms warm) as [HE _].
  destruct (HE "toy:m1") as (Hyes & _ & _).
  destruct (Exists_local_first pms cold) as [_ HT].
  destruct (HT "latest") as (_ & _ & Hno).
  rewrite (Hyes _ eq_refl).
  by rewrite (Hno _ (Ok true) _ eq_refl eq_refl).
Defined.

Lemma Get_failures_witness :
  (proxy.Get pms "toy:zz" offline).1 = Err (errorString "unknown manifest")
  ∧ (proxy.Get pmsFull "toy:m1" cold).1 = Err (errorString "no space left")
  ∧ proxy.scheduler (proxy.Get pmsFull "toy:m1" cold).2 = [].
Proof.
  destruct (Get_failures pms "toy:zz" offline) as [Hboth _].
  destruct (Get_failures pmsFull "toy:m1" cold) as [_ Hput].
  rewrite (Hboth (errorString "unknown manifest") _
             (errorString "unknown manifest") _ eq_refl eq_refl).
  by rewrite (Hput (errorString "unknown manifest") _ "m1" _
                (errorString "no space left") _ eq_refl eq_refl eq_refl).
Defined.

Lemma GetByTag_failures_witness :
  (proxy.GetByTag Payload FromBytes pmsFull "latest" cold).1
    = Err (errorString "no space left")
  ∧ (proxy.GetByTag (λ _, Err (errorString "unsigned")) FromBytes pms "latest" cold).1
    = Err (errorString "unsigned").
Proof.
  destruct (GetByTag_failures Payload FromBytes pmsFull "latest" cold "m1" upstream
              eq_refl) as (_ & _ & _ & Hput).
  destruct (GetByTag_failures (λ _, Err (errorString "unsigned")) FromBytes
              pms "latest" cold "m1" upstream eq_refl) as (Hpayload & _).
  rewrite (Hput "m1" "toy:m1" _ (errorString "no space left") _
             eq_refl eq_refl eq_refl eq_refl).
  by rewrite (Hpayload (errorString "unsigned") eq_refl).
Defined.

Lemma proxy_never_writes_remote_witness :
  proxy.remote (proxy.GetByTag Payload FromBytes pms "latest" cold).2 = upstream
  ∧ proxy.remote (proxy.Get pms "toy:m1" cold).2 = upstream.
Proof.
  assert (Hget : ∀ dgst (r : memory), (memoryGet dgst r).2 = r).
  { intros dgst r. unfold memoryGet. by destruct (r.1 !! dgst). }
  destruct (proxy_never_writes_remote Payload FromBytes pms) with (w := cold)
    as (_ & HGet & _ & _ & _ & _ & HGetByTag).
  - reflexivity.
  - exact Hget.
  - reflexivity.
  - intros tag r. simpl. destruct (r.2 !! tag); [apply Hget|reflexivity].
  - split; [apply HGetByTag|apply HGet].
Defined.

Lemma proxy_scheduler_discipline_witness :
  proxy.scheduler (proxy.Get pms "toy:zz" offline).2 = proxy.scheduler offline.
Proof.
  destruct (proxy_scheduler_discipline Payload FromBytes pms offline) as (HGet & _).
  exact (HGet "toy:zz" _ _ eq_refl).
Defined.

Lemma provided_options : Forall namespace.provided options.
Proof.
  unfold options.
  constructor; [right; by left|].
  constructor; [do 4 right; by eexists|].
  constructor; [do 4 right; by eexists|].
  constructor; [by left|]. constructor.
Qed.

Lemma provided_plainOptions : Forall namespace.provided plainOptions.
Proof.
  unfold plainOptions.
  constructor; [right; by left|].
  constructor; [do 2 right; by left|]. constructor.
Qed.

Lemma NewRegistry_wellFormed_witness :
  ∃ reg, namespace.NewRegistry options = Ok reg
    ∧ namespace.blobDescriptorCacheProvider reg = Some "redis"
    ∧ namespace.bs_statter (namespace.reg_blobStore reg)
      = namespace.cachedBlobStatter "redis" namespace.blobStatter.
Proof.
  destruct (NewRegistry_wellFormed options provided_options)
    as (reg & HNew & _ & _ & _ & Hcache & Hlast).
  assert (Hredis : namespace.blobDescriptorCacheProvider reg = Some "redis").
  { apply (Hlast [namespace.EnableDelete;
                  namespace.BlobDescriptorCacheProvider (Some "inmemory")]
                 "redis" [namespace.EnableRedirect]); [reflexivity|].
    intros q Hin%list_elem_of_singleton.
    apply (f_equal (λ o : @namespace.RegistryOption string,
                      match o plainRegistry with
                      | Ok r => namespace.blobDescriptorCacheProvider r
                      | Err _ => None
                      end)) in Hin.
    discriminate Hin. }
  exists reg. split; [exact HNew|]. split; [exact Hredis|].
  by rewrite Hcache, Hredis.
Defined.

Lemma NewRegistry_flags_witness :
  namespace.NewRegistry plainOptions = Ok plainRegistry
  ∧ namespace.deleteEnabled plainRegistry = true
  ∧ namespace.resumableDigestEnabled plainRegistry = false.
Proof.
  split; [reflexivity|].
  destruct (NewRegistry_flags plainOptions plainRegistry provided_plainOptions eq_refl)
    as (Hdelete & _ & _ & Hresume).
  split; [apply Hdelete; by left|apply Hresume; right; by left].
Defined.

Lemma NewRegistry_first_error_witness :
  namespace.NewRegistry (plainOptions ++ failingOption :: options)
  = Err (errorString "bad option").
Proof.
  apply (NewRegistry_first_error plainOptions failingOption options plainRegistry);
    reflexivity.
Defined.


Lemma Blobs_layer_link_only_witness :
  ∃ st, namespace.ls_blobAccessController (namespace.Blobs plainRepository)
        = namespace.linkedStatter st
    ∧ registry.Stat st d1 revisionOnly = (Err ErrBlobUnknown, revisionOnly).
Proof.
  destruct (Blobs_layer_link_only plainRepository eq_refl) as (st & Hst & Hstat).
  exists st. split; [exact Hst|].
  eapply (Hstat revisionOnly d1); reflexivity.
Defined.

Lemma Repository_without_cache_witness :
  namespace.Repository RepositoryScoped plainRegistry "library/app"
  = Ok plainRepository.
Proof.
  apply (Repository_without_cache RepositoryScoped plainOptions plainRegistry
           "library/app" provided_plainOptions); [|reflexivity].
  intros p Hin. unfold plainOptions in Hin.
  assert (Hcache : ∀ option : @namespace.RegistryOption string,
            namespace.BlobDescriptorCacheProvider (Some p) = option →
            match option plainRegistry with
            | Ok r => namespace.blobDescriptorCacheProvider r
            | Err _ => None
            end = Some p) by (by intros option <-).
  apply elem_of_cons in Hin as [H|Hin].
  { apply Hcache in H. discriminate H. }
  apply list_elem_of_singleton in Hin.
  apply Hcache in Hin. discriminate Hin.
Defined.

Lemma Untag_keeps_other_tags_witness :
  (storage.Get ts "beta" untagged).1 = (storage.Get ts "beta" s4).1.
Proof.
  apply (Untag_keeps_other_tags ts "v1" "beta" s4 untagged);
    [reflexivity|reflexivity|reflexivity|discriminate].
Defined.

Lemma Lookup_blocks_iff_witness :
  storage.Lookup tsZero (DescriptorOf d2) s5 = Blocks.
Proof.
  apply (Lookup_blocks_iff tsZero (DescriptorOf d2) s5).
  split; [reflexivity|]. by exists "alpha", ["beta"; "ghost"; "v1"].
Defined.

End MoreScenarios.

(** * The zero concurrency factor *)

Section ZeroFactor.
Import storagedriver scenario.


End ZeroFactor.
